(** * AP-Delimitation: the aggregation and merge logic of [map.py]

    A shallow embedding of the data-wrangling core of the script: the key
    normaliser, the two loaders, the village merge, the constituency
    aggregation and the dissolve, with the pandas and geopandas operations
    the script calls written out as list functions.

    Conventions of the model.
    - A float64 is a [num]: a rational held exactly, or one of IEEE's
      infinities, or NaN.  Arithmetic is exact on rationals (no rounding
      error, no overflow) and follows IEEE on the special values; zero has
      no sign.  Results are kept in lowest terms ([Qred]).
    - A Python string is a [pystr], the list of its code points.
    - A missing value ([None], [NaN]) is the one cell [NA]: pandas' [isna],
      [groupby], [merge] and [sum] do not tell the two apart.
    - A frame holds its column names in order and its rows as association
      lists; its index is the default [RangeIndex] unless said otherwise.
      Frames with a repeated column name are outside the model. *)

From Stdlib Require Import List String Ascii ZArith NArith QArith Qround.
From Stdlib Require Import Lia Bool Permutation Arith DecimalString Sorted.
Import ListNotations.

Local Open Scope string_scope.
Local Open Scope list_scope.

(* ================================================================== *)
(** * Numbers *)
(* ================================================================== *)

Inductive num : Type :=
| Fin (q : Q)
| PInf
| NInf
| NaN.

Definition is_nan (x : num) : bool :=
  match x with NaN => true | _ => false end.

Definition Qzero_b (q : Q) : bool := Qeq_bool q 0.
Definition Qpos_b (q : Q) : bool := negb (Qle_bool q 0).
Definition Qneg_b (q : Q) : bool := negb (Qle_bool 0 q).

Definition num_neg (x : num) : num :=
  match x with
  | Fin q => Fin (Qred (- q))
  | PInf => NInf
  | NInf => PInf
  | NaN => NaN
  end.

(** [x + y] *)
Definition num_add (x y : num) : num :=
  match x, y with
  | NaN, _ | _, NaN => NaN
  | Fin a, Fin b => Fin (Qred (a + b))
  | PInf, NInf | NInf, PInf => NaN
  | PInf, _ | _, PInf => PInf
  | NInf, _ | _, NInf => NInf
  end.

(** An infinity scaled by a finite factor: [inf * 0] is NaN. *)
Definition scale_inf (positive : bool) (q : Q) : num :=
  if Qzero_b q then NaN
  else if Bool.eqb positive (Qpos_b q) then PInf else NInf.

(** [x * y] *)
Definition num_mul (x y : num) : num :=
  match x, y with
  | NaN, _ | _, NaN => NaN
  | Fin a, Fin b => Fin (Qred (a * b))
  | PInf, Fin b => scale_inf true b
  | NInf, Fin b => scale_inf false b
  | Fin a, PInf => scale_inf true a
  | Fin a, NInf => scale_inf false a
  | PInf, PInf | NInf, NInf => PInf
  | PInf, NInf | NInf, PInf => NInf
  end.

(** [x / y]: a finite value over zero is an infinity of its sign, [0 / 0]
    and [inf / inf] are NaN; nothing is raised. *)
Definition num_div (x y : num) : num :=
  match x, y with
  | NaN, _ | _, NaN => NaN
  | Fin a, Fin b =>
      if Qzero_b b then
        if Qzero_b a then NaN else if Qpos_b a then PInf else NInf
      else Fin (Qred (a / b))
  | Fin _, PInf | Fin _, NInf => Fin 0
  | PInf, Fin b => if Qneg_b b then NInf else PInf
  | NInf, Fin b => if Qneg_b b then PInf else NInf
  | PInf, PInf | PInf, NInf | NInf, PInf | NInf, NInf => NaN
  end.

(** Round half to even, numpy's [rint]. *)
Definition rint (q : Q) : Z :=
  let f := Qfloor q in
  let r := (q - inject_Z f)%Q in
  match Qcompare r (1 # 2) with
  | Lt => f
  | Gt => (f + 1)%Z
  | Eq => if Z.even f then f else (f + 1)%Z
  end.

(** [Series.round(2)]: scale by 100, round to an integer, scale back. *)
Definition round2 (x : num) : num :=
  match x with
  | Fin q => Fin (Qred (inject_Z (rint (q * 100)) / 100))
  | _ => x
  end.

(** [Series.fillna(0)]: only NaN is replaced, an infinity stays. *)
Definition fillna0 (x : num) : num :=
  match x with NaN => Fin 0 | _ => x end.

(** [sum] with [skipna]: NaN entries are left out; with fewer than
    [min_count] entries left the result is NaN. *)
Definition sum_skipna (min_count : nat) (xs : list num) : num :=
  let vals := filter (fun x => negb (is_nan x)) xs in
  if (List.length vals <? min_count)%nat then NaN
  else fold_left num_add vals (Fin 0).

Definition num_eqb (x y : num) : bool :=
  match x, y with
  | Fin a, Fin b => Qeq_bool a b
  | PInf, PInf | NInf, NInf | NaN, NaN => true
  | _, _ => false
  end.

(** The sort order of numbers; NaN is placed last. *)
Definition num_ltb (x y : num) : bool :=
  match x, y with
  | NaN, _ => false
  | _, NaN => true
  | _, NInf => false
  | NInf, _ => true
  | PInf, _ => false
  | _, PInf => true
  | Fin a, Fin b => negb (Qle_bool b a)
  end.

(* ================================================================== *)
(** * Strings, cells and frames *)
(* ================================================================== *)

(** A Python [str]: its code points. *)
Definition pystr : Type := list N.

(** The code points of an ASCII literal. *)
Definition py (s : string) : pystr :=
  map N_of_ascii (list_ascii_of_string s).

Fixpoint pystr_eqb (a b : pystr) : bool :=
  match a, b with
  | [], [] => true
  | x :: a', y :: b' => N.eqb x y && pystr_eqb a' b'
  | _, _ => false
  end.

(** Python's [<] on strings: lexicographic on code points. *)
Fixpoint pystr_ltb (a b : pystr) : bool :=
  match a, b with
  | _, [] => false
  | [], _ :: _ => true
  | x :: a', y :: b' => N.ltb x y || (N.eqb x y && pystr_ltb a' b')
  end.

Inductive cell : Type :=
| Num (x : num)
| Str (s : pystr).

Definition NA : cell := Num NaN.

(** [pd.isna] *)
Definition isna (c : cell) : bool :=
  match c with Num NaN => true | _ => false end.

(** Equality of values as [groupby], [merge] and index look-ups take it:
    by value, with two missing values equal. *)
Definition cell_eqb (a b : cell) : bool :=
  match a, b with
  | Num x, Num y => num_eqb x y
  | Str s, Str t => pystr_eqb s t
  | _, _ => false
  end.

(** The order in which group keys are sorted: numbers before strings,
    the missing key last. *)
Definition cell_ltb (a b : cell) : bool :=
  match a, b with
  | Num NaN, _ => false
  | _, Num NaN => true
  | Num x, Num y => num_ltb x y
  | Num _, Str _ => true
  | Str _, Num _ => false
  | Str s, Str t => pystr_ltb s t
  end.

(** The content of a numeric column. *)
Definition as_num (c : cell) : num :=
  match c with Num x => x | Str _ => NaN end.

Definition row : Type := list (string * cell).

Record frame : Type := mkFrame {
  columns : list string;
  rows : list row
}.

Fixpoint row_get (r : row) (c : string) : cell :=
  match r with
  | [] => NA
  | (c', v) :: r' => if String.eqb c' c then v else row_get r' c
  end.

Fixpoint row_set (r : row) (c : string) (v : cell) : row :=
  match r with
  | [] => [(c, v)]
  | (c', v') :: r' =>
      if String.eqb c' c then (c', v) :: r' else (c', v') :: row_set r' c v
  end.

Definition mem (c : string) (l : list string) : bool :=
  existsb (String.eqb c) l.

(** [c in df.columns] *)
Definition has_column (f : frame) (c : string) : bool :=
  mem c (columns f).

(** [df[c]], for a column that is there. *)
Definition column (f : frame) (c : string) : list cell :=
  map (fun r => row_get r c) (rows f).

(** [df[c] = values], one value per row, in row order: the column is
    replaced in place or added as the last one. *)
Definition set_column (f : frame) (c : string) (vals : list cell) : frame :=
  {| columns := if has_column f c then columns f else columns f ++ [c];
     rows := map (fun rv => row_set (fst rv) c (snd rv))
                 (combine (rows f) vals) |}.

Inductive exn : Type :=
| KeyError (name : string)
| MergeError
| TypeError
| ValueError.

Inductive res (A : Type) : Type :=
| Ok (a : A)
| Raise (e : exn).

Arguments Ok {A} a.
Arguments Raise {A} e.

Definition res_bind {A B : Type} (m : res A) (k : A -> res B) : res B :=
  match m with
  | Ok a => k a
  | Raise e => Raise e
  end.

Notation "x <- m ;; k" := (res_bind m (fun x => k))
  (at level 61, m at next level, right associativity).

(** [df[[c1; ...; cn]]]: the named columns in that order, [KeyError] on
    the first absent one. *)
Definition select (f : frame) (cs : list string) : res frame :=
  match find (fun c => negb (has_column f c)) cs with
  | Some c => Raise (KeyError c)
  | None =>
      Ok {| columns := cs;
            rows := map (fun r => map (fun c => (c, row_get r c)) cs)
                        (rows f) |}
  end.

(** [df.rename(columns={old: new})] *)
Definition rename_column (f : frame) (old new : string) : frame :=
  let ren := fun c : string => if String.eqb c old then new else c in
  {| columns := map ren (columns f);
     rows := map (map (fun cv : string * cell => (ren (fst cv), snd cv)))
                 (rows f) |}.

(* ------------------------------------------------------------------ *)
(** ** Grouping *)

Fixpoint insert_key (k : cell) (l : list cell) : list cell :=
  match l with
  | [] => [k]
  | h :: t =>
      if cell_eqb k h then h :: t
      else if cell_ltb k h then k :: h :: t
      else h :: insert_key k t
  end.

(** The group labels of [groupby(keys, dropna=...)] (with [sort=True], the
    default): the distinct keys in sorted order; the missing key is a group
    of its own, placed last, unless [dropna]. *)
Definition group_keys (dropna : bool) (keys : list cell) : list cell :=
  fold_left (fun acc k => insert_key k acc)
            (if dropna then filter (fun k => negb (isna k)) keys else keys)
            [].

(** The values of the rows whose key is [k]. *)
Definition group_values (k : cell) (keys : list cell) (vals : list num)
  : list num :=
  map snd (filter (fun kv => cell_eqb k (fst kv)) (combine keys vals)).

Definition group_sum (min_count : nat) (k : cell) (keys : list cell)
    (vals : list num) : num :=
  sum_skipna min_count (group_values k keys vals).

(** A [Series] that is indexed by group labels. *)
Definition series : Type := list (cell * num).

(** [values.groupby(keys).sum(min_count=...)], [dropna] as given. *)
Definition groupby_sum_series (dropna : bool) (min_count : nat)
    (keys : list cell) (vals : list num) : series :=
  map (fun k => (k, group_sum min_count k keys vals))
      (group_keys dropna keys).

Fixpoint series_lookup (s : series) (label : cell) : num :=
  match s with
  | [] => NaN
  | (l, v) :: s' => if cell_eqb l label then v else series_lookup s' label
  end.

(** [a / b] on two series: label by label (the two operands of the script
    carry the same labels). *)
Definition series_div (a b : series) : series :=
  map (fun lv => (fst lv, num_div (snd lv) (series_lookup b (fst lv)))) a.

Definition series_map (g : num -> num) (a : series) : series :=
  map (fun lv => (fst lv, g (snd lv))) a.

(** The labels of a [RangeIndex] of [n] rows. *)
Definition range_index (n : nat) : list cell :=
  map (fun i => Num (Fin (inject_Z (Z.of_nat i)))) (seq 0 n).

(** [df[c] = s] for a series [s]: pandas aligns [s] on the index of [df],
    here a [RangeIndex]: row [i] takes the entry of [s] labelled [i], and
    NaN when [s] has no such label. *)
Definition set_column_aligned (f : frame) (c : string) (s : series) : frame :=
  set_column f c
    (map (fun i => Num (series_lookup s i))
         (range_index (List.length (rows f)))).

(* ================================================================== *)
(** * Configuration *)
(* ================================================================== *)

Definition SHP_REGION_FIELD : string := "id".
Definition CSV_KEY : string := "region_code".
Definition VILLAGE_FIELD : string := "village_name".
Definition AC_FIELD : string := "AC_name".
Definition DUMMY_AC_FIELD : string := "dummy_ac".

Definition TOTAL_VOTES_COL : string := "total_votes".
Definition PARTY_COUNT_COLS : list string :=
  ["TDP_votes"; "YSRCP_votes"; "BJP_votes"; "Others_votes"].
Definition PARTY_SHARE_COLS : list string :=
  ["TDP_vote_share"; "YSRCP_vote_share"; "BJP_vote_share"; "Others"].
Definition DEFAULT_CASTE_COLS : list string :=
  ["SC_pct"; "ST_pct"; "OBC_pct"; "BC_pct"; "OC_pct"; "Minority_pct"].

(** The columns of the coercion loop of [ac_aggregate]. *)
Definition NUMERIC_COLS : list string :=
  [TOTAL_VOTES_COL] ++ PARTY_COUNT_COLS ++ PARTY_SHARE_COLS.

(** The keys of the dictionary passed to [agg]. *)
Definition SUM_COLS : list string := TOTAL_VOTES_COL :: PARTY_COUNT_COLS.

(** [share_map]: output column and the count it is computed from. *)
Definition share_map : list (string * string) :=
  [("TDP_share", "TDP_votes"); ("YSRCP_share", "YSRCP_votes");
   ("BJP_share", "BJP_votes"); ("Others_share", "Others_votes")].

(** [c + "_weighted"] *)
Definition weighted_name (c : string) : string := (c ++ "_weighted")%string.

(** [group_key = DUMMY_AC_FIELD if use_dummy else AC_FIELD] *)
Definition group_key_of (use_dummy : bool) : string :=
  if use_dummy then DUMMY_AC_FIELD else AC_FIELD.

(* ================================================================== *)
(** * The AC aggregator, on frame values *)
(* ================================================================== *)

Section Aggregator.

(** [pd.to_numeric] on a string: the number it spells, NaN when it spells
    none ([errors="coerce"]).  The grammar is pandas', not the script's. *)
Variable parse_number : pystr -> num.

(** [pd.to_numeric(v, errors="coerce")] on one value. *)
Definition to_numeric (v : cell) : num :=
  match v with
  | Num x => x
  | Str s => parse_number s
  end.

Definition to_numeric_column (vals : list cell) : list cell :=
  map (fun v => Num (to_numeric v)) vals.

(** One turn of the coercion loop:
    [if c in work.columns: work[c] = pd.to_numeric(work[c], ...)]. *)
Definition coerce_column (work : frame) (c : string) : frame :=
  if has_column work c
  then set_column work c (to_numeric_column (column work c))
  else work.

Definition coerce_numerics (work : frame) : frame :=
  fold_left coerce_column NUMERIC_COLS work.

(** [work.groupby(key, dropna=False).agg({c: "sum" ...}).reset_index()]:
    one row per group, holding the key and the sum of each column.  A
    column that is absent is a [KeyError]; so is one that is the grouping
    column itself (a [ValueError] at [reset_index] in some versions). *)
Definition groupby_agg_sum (work : frame) (key : string) (cs : list string)
  : res frame :=
  if negb (has_column work key) then Raise (KeyError key)
  else
    match find (fun c => negb (has_column work c) || String.eqb c key) cs with
    | Some c => Raise (KeyError c)
    | None =>
        let keys := column work key in
        Ok {| columns := key :: cs;
              rows :=
                map (fun k =>
                       (key, k)
                       :: map (fun c =>
                                 (c, Num (group_sum 0 k keys
                                            (map as_num (column work c)))))
                              cs)
                    (group_keys false keys) |}
    end.

(** [(agg[cnt] / agg[TOTAL_VOTES_COL] * 100).round(2).fillna(0)] *)
Definition share_of (count total : num) : num :=
  fillna0 (round2 (num_mul (num_div count total) (Fin 100))).

Definition share_values (counts totals : list cell) : list cell :=
  map (fun ct => Num (share_of (as_num (fst ct)) (as_num (snd ct))))
      (combine counts totals).

(** One turn of the share loop: [agg[out] = ...]. *)
Definition add_share (agg : frame) (oc : string * string) : frame :=
  set_column agg (fst oc)
    (share_values (column agg (snd oc)) (column agg TOTAL_VOTES_COL)).

(** [(num / den * 1.0).round(2)] of one caste column, from the three
    columns of [wdf], as a series on the group labels; both [groupby]
    calls take the default [dropna=True]. *)
Definition weighted_values (keys field votes : list cell) : series :=
  let field := map as_num field in
  let votes := map as_num votes in
  let product :=
    map (fun fv => num_mul (fst fv) (snd fv)) (combine field votes) in
  let num := groupby_sum_series true 1 keys product in
  let den := groupby_sum_series true 1 keys votes in
  series_map (fun x => round2 (num_mul x (Fin 1))) (series_div num den).

(** One turn of the caste loop.  [work[[group_key, c, TOTAL_VOTES_COL]]]
    with [c] one of the other two names has that column twice, and
    [pd.to_numeric] then refuses [wdf[c]]. *)
Definition add_weighted (work : frame) (group_key : string)
    (agg : frame) (c : string) : res frame :=
  if has_column work c then
    if String.eqb c group_key || String.eqb c TOTAL_VOTES_COL
    then Raise TypeError
    else
      wdf <- select work [group_key; c; TOTAL_VOTES_COL] ;;
      let wdf1 := set_column wdf c (to_numeric_column (column wdf c)) in
      let wdf2 :=
        set_column wdf1 TOTAL_VOTES_COL
          (to_numeric_column (column wdf1 TOTAL_VOTES_COL)) in
      Ok (set_column_aligned agg (weighted_name c)
            (weighted_values (column wdf2 group_key) (column wdf2 c)
                             (column wdf2 TOTAL_VOTES_COL)))
  else Ok agg.

Fixpoint add_weighted_all (work : frame) (group_key : string)
    (agg : frame) (caste_cols : list string) : res frame :=
  match caste_cols with
  | [] => Ok agg
  | c :: cs =>
      agg' <- add_weighted work group_key agg c ;;
      add_weighted_all work group_key agg' cs
  end.

(** [ac_aggregate(df_in, group_key, caste_cols)], from the value of
    [df_in] to the value it returns. *)
Definition ac_aggregate (df_in : frame) (group_key : string)
    (caste_cols : list string) : res frame :=
  let work := coerce_numerics df_in in
  sums <- groupby_agg_sum work group_key SUM_COLS ;;
  let agg := rename_column sums group_key "AC_key" in
  let agg := fold_left add_share share_map agg in
  add_weighted_all work group_key agg caste_cols.

End Aggregator.

(** A reader of unsigned decimal integers, the instance of [parse_number]
    of the worked examples. *)
Fixpoint parse_digits_from (acc : Z) (s : pystr) : num :=
  match s with
  | [] => Fin (inject_Z acc)
  | d :: s' =>
      if (N.leb 48 d && N.leb d 57)%bool
      then parse_digits_from (10 * acc + Z.of_N (d - 48)) s'
      else NaN
  end.

Definition parse_digits (s : pystr) : num :=
  match s with
  | [] => NaN
  | _ => parse_digits_from 0 s
  end.

(* ================================================================== *)
(** * The key normaliser *)
(* ================================================================== *)

(** [str.isspace] on one code point; [str.strip] and the class [\s] of
    [re] (on [str] patterns) use this same set. *)
Definition isspace (c : N) : bool :=
  ((9 <=? c) && (c <=? 13) || (28 <=? c) && (c <=? 32)
   || (c =? 133) || (c =? 160) || (c =? 5760)
   || (8192 <=? c) && (c <=? 8202)
   || (c =? 8232) || (c =? 8233) || (c =? 8239) || (c =? 8287)
   || (c =? 12288))%N.

Definition SPACE : N := 32.
Definition NBSP : N := 160.

Fixpoint lstrip (s : pystr) : pystr :=
  match s with
  | [] => []
  | c :: s' => if isspace c then lstrip s' else s
  end.

Fixpoint rstrip (s : pystr) : pystr :=
  match s with
  | [] => []
  | c :: s' =>
      match rstrip s' with
      | [] => if isspace c then [] else [c]
      | r => c :: r
      end
  end.

(** [s.strip()] *)
Definition strip (s : pystr) : pystr := rstrip (lstrip s).

(** [s.replace(NBSP, SPACE)], the first being U+00A0 *)
Definition replace_nbsp (s : pystr) : pystr :=
  map (fun c => if (c =? NBSP)%N then SPACE else c) s.

(** [re.sub(r"\s+", " ", s)], scanning from the left; [in_run] tells that
    the run of whitespace under the cursor has been replaced already. *)
Fixpoint sub_ws_from (in_run : bool) (s : pystr) : pystr :=
  match s with
  | [] => []
  | c :: s' =>
      if isspace c
      then if in_run then sub_ws_from true s'
           else SPACE :: sub_ws_from true s'
      else c :: sub_ws_from false s'
  end.

Definition re_sub_ws (s : pystr) : pystr := sub_ws_from false s.

(** The words of a string: its maximal runs of non-whitespace. *)
Fixpoint words (s : pystr) : list pystr :=
  match s with
  | [] => []
  | c :: s' =>
      if isspace c then words s'
      else
        match s' with
        | [] => [[c]]
        | c' :: _ =>
            if isspace c' then [c] :: words s'
            else
              match words s' with
              | w :: ws => (c :: w) :: ws
              | [] => [[c]]
              end
        end
  end.

Fixpoint join_space (ws : list pystr) : pystr :=
  match ws with
  | [] => []
  | [w] => w
  | w :: ws' => w ++ SPACE :: join_space ws'
  end.

Section Normalizer.

(** [str.upper] maps each code point to its full upper-case form, one or
    more code points; the table is Unicode's. *)
Variable upper_char : N -> pystr.

(** [str(x)] of a number. *)
Variable str_of_num : num -> pystr.

(** [s.upper()] *)
Definition upper (s : pystr) : pystr := flat_map upper_char s.

(** [str(s)] *)
Definition py_str (s : cell) : pystr :=
  match s with
  | Str t => t
  | Num x => str_of_num x
  end.

Definition _normalize_key (s : cell) : cell :=
  if isna s then NA
  else
    let s := replace_nbsp (strip (py_str s)) in
    let s := upper (re_sub_ws s) in
    Str s.

(** The normal form in the words of the specification: the words of the
    text, each in upper case, one space between them. *)
Definition spec_normal_form (s : pystr) : pystr :=
  join_space (map upper (words s)).

(** [df[c] = df[c].map(_normalize_key)] *)
Definition normalize_key_column (f : frame) (c : string) : res frame :=
  if has_column f c
  then Ok (set_column f c (map _normalize_key (column f c)))
  else Raise (KeyError c).

End Normalizer.

(** Upper case on ASCII, every other code point left as it is: the
    instance of [upper_char] of the worked examples. *)
Definition ascii_upper_char (c : N) : pystr :=
  if ((97 <=? c) && (c <=? 122))%N then [(c - 32)%N] else [c].

(** A printer of numbers, the instance of [str_of_num] of the worked
    examples: an integer in decimal, as Python prints an [int]; any other
    finite value as a fraction. *)
Definition decimal_of_Z (z : Z) : pystr :=
  py (DecimalString.NilZero.string_of_int (Z.to_int z)).

Definition decimal_str_of_num (x : num) : pystr :=
  match x with
  | Fin q =>
      if Pos.eqb (Qden q) 1 then decimal_of_Z (Qnum q)
      else decimal_of_Z (Qnum q) ++ py "/" ++ decimal_of_Z (Zpos (Qden q))
  | PInf => py "inf"
  | NInf => py "-inf"
  | NaN => py "nan"
  end.

(* ================================================================== *)
(** * Geometry frames: loader, merge and dissolve *)
(* ================================================================== *)

(** [validate=] of [merge] *)
Inductive validate : Type :=
| NoValidation
| OneToOne
| ManyToOne.

(** [Series.duplicated().any()] *)
Fixpoint has_duplicates (l : list cell) : bool :=
  match l with
  | [] => false
  | k :: l' => existsb (cell_eqb k) l' || has_duplicates l'
  end.

(** What [merge] checks before it joins. *)
Definition validation_fails (v : validate) (lkeys rkeys : list cell) : bool :=
  match v with
  | NoValidation => false
  | OneToOne => has_duplicates lkeys || has_duplicates rkeys
  | ManyToOne => has_duplicates rkeys
  end.

(** The names [merge] gives to columns found on both sides (the default
    suffixes); a key column shared through [on=] is not renamed. *)
Definition left_name (shared : list string) (right_cols : list string)
    (c : string) : string :=
  if negb (mem c shared) && mem c right_cols then (c ++ "_x")%string else c.

Definition right_name (shared : list string) (left_cols : list string)
    (c : string) : string :=
  if negb (mem c shared) && mem c left_cols then (c ++ "_y")%string else c.

Definition rename_row (ren : string -> string) (r : row) : row :=
  map (fun cv : string * cell => (ren (fst cv), snd cv)) r.

Section Geo.

(** A geometry value (a polygon or a multipolygon) of shapely. *)
Variable geometry : Type.

(** [unary_union] of the geometries of a group, what [dissolve] places in
    the geometry column. *)
Variable unary_union : list geometry -> geometry.

(** A [GeoDataFrame]: the attribute columns, the rows with the geometry
    of each held beside its attributes, and the CRS if there is one.  The
    geometry column is named [geometry] and is not among [gcolumns]. *)
Record geo_frame : Type := mkGeo {
  gcolumns : list string;
  features : list (geometry * row);
  gcrs : option string
}.

(** The attribute table of a geometry frame. *)
Definition table (g : geo_frame) : frame :=
  {| columns := gcolumns g; rows := map snd (features g) |}.

Definition with_table (g : geo_frame) (f : frame) : geo_frame :=
  {| gcolumns := columns f;
     features := combine (map fst (features g)) (rows f);
     gcrs := gcrs g |}.

(* ---------------------------------------------------------------- *)
(** ** The geometry loader *)

Variable upper_char : N -> pystr.
Variable str_of_num : num -> pystr.

(** [crs.to_epsg()]: the EPSG code when pyproj identifies one. *)
Variable to_epsg : string -> res (option Z).

(** [gdf.to_crs(epsg=...)]: a new frame, or an exception. *)
Variable to_crs : geo_frame -> Z -> res geo_frame.

(** [e != 4326], for [e] an EPSG code or [None] *)
Definition differs_from_4326 (e : option Z) : bool :=
  match e with
  | Some z => negb (Z.eqb z 4326)
  | None => true
  end.

(** The body of the [try]:
    [if gdf.crs is None or gdf.crs.to_epsg() != 4326:
       gdf = gdf.to_crs(epsg=4326)]. *)
Definition ensure_wgs84 (gdf : geo_frame) : res geo_frame :=
  match gcrs gdf with
  | None => to_crs gdf 4326
  | Some c =>
      e <- to_epsg c ;;
      if differs_from_4326 e then to_crs gdf 4326 else Ok gdf
  end.

(** [load_shapefile], from what [gpd.read_file(path)] returned. *)
Definition load_shapefile (file : geo_frame) (key_field : string)
  : res geo_frame :=
  t <- normalize_key_column upper_char str_of_num (table file) key_field ;;
  let gdf := with_table file t in
  match ensure_wgs84 gdf with
  | Ok gdf' => Ok gdf'
  | Raise _ => Ok gdf
  end.

(* ---------------------------------------------------------------- *)
(** ** The village merge *)

(** The rows of a left join: each left row once per right row of the
    same key, in the order of the left; a left row without a match is
    kept, its right-hand columns missing. *)
Definition left_join_rows (lrows : list (geometry * row)) (rrows : list row)
    (left_on right_on : string) (lren rren : string -> string)
    (rcols : list string) : list (geometry * row) :=
  flat_map
    (fun l =>
       match filter (fun r => cell_eqb (row_get (snd l) left_on)
                                       (row_get r right_on)) rrows with
       | [] => [(fst l,
                 rename_row lren (snd l) ++ map (fun c => (rren c, NA)) rcols)]
       | ms =>
           map (fun r =>
                  (fst l,
                   rename_row lren (snd l)
                   ++ map (fun c => (rren c, row_get r c)) rcols))
               ms
       end)
    lrows.

(** [left.merge(right, left_on=..., right_on=..., how="left",
    validate=...)] on a geometry frame and a table. *)
Definition merge_left (left : geo_frame) (right : frame)
    (left_on right_on : string) (v : validate) : res geo_frame :=
  if negb (has_column (table left) left_on) then Raise (KeyError left_on)
  else if negb (has_column right right_on) then Raise (KeyError right_on)
  else if validation_fails v (column (table left) left_on)
                             (column right right_on)
  then Raise MergeError
  else
    let shared := if String.eqb left_on right_on then [left_on] else [] in
    let rcols :=
      filter (fun c => negb (mem c shared)) (columns right) in
    let lren := left_name shared (columns right) in
    let rren := right_name shared ("geometry" :: gcolumns left) in
    Ok {| gcolumns := map lren (gcolumns left) ++ map rren rcols;
          features :=
            left_join_rows (features left) (rows right)
                           left_on right_on lren rren rcols;
          gcrs := gcrs left |}.

(** Lines 111 and 112: the cardinality mode and the merge. *)
Definition merge_mode (gdf : geo_frame) : validate :=
  if has_duplicates (column (table gdf) SHP_REGION_FIELD)
  then ManyToOne else OneToOne.

Definition merged (gdf : geo_frame) (df : frame) : res geo_frame :=
  merge_left gdf df SHP_REGION_FIELD CSV_KEY (merge_mode gdf).

(* ---------------------------------------------------------------- *)
(** ** The dissolve *)

(** The geometries of the features whose key is [k]. *)
Definition group_geometries (key : string) (k : cell)
    (fs : list (geometry * row)) : list geometry :=
  map fst (filter (fun ft => cell_eqb k (row_get (snd ft) key)) fs).

(** [merged[[key, "geometry"]].copy().dissolve(by=key, as_index=False)]:
    geopandas groups with [dropna=True], its default. *)
Definition dissolve (g : geo_frame) (key : string) : res geo_frame :=
  if negb (has_column (table g) key) then Raise (KeyError key)
  else
    let keys := column (table g) key in
    Ok {| gcolumns := [key];
          features :=
            map (fun k =>
                   (unary_union (group_geometries key k (features g)),
                    [(key, k)]))
                (group_keys true keys);
          gcrs := gcrs g |}.

Variable parse_number : pystr -> num.

(** The branch [level == "Assembly Constituency"] up to [ac_gdf]. *)
Definition ac_layer (mgd : geo_frame) (use_dummy : bool)
    (caste_cols : list string) : res geo_frame :=
  let group_key := group_key_of use_dummy in
  g_ac <- dissolve mgd group_key ;;
  ac_stats <- ac_aggregate parse_number (table mgd) group_key caste_cols ;;
  let ac_stats := rename_column ac_stats "AC_key" group_key in
  merge_left g_ac ac_stats group_key group_key NoValidation.

End Geo.

Arguments mkGeo {geometry}.
Arguments gcolumns {geometry}.
Arguments features {geometry}.
Arguments gcrs {geometry}.
Arguments table {geometry}.
Arguments with_table {geometry}.
Arguments ensure_wgs84 {geometry}.
Arguments load_shapefile {geometry}.
Arguments left_join_rows {geometry}.
Arguments merge_left {geometry}.
Arguments merge_mode {geometry}.
Arguments merged {geometry}.
Arguments group_geometries {geometry}.
Arguments dissolve {geometry}.
Arguments ac_layer {geometry}.

(* ================================================================== *)
(** * The columns that are aggregated and shown *)
(* ================================================================== *)

(** [CASTE_COLS = [c for c in DEFAULT_CASTE_COLS if c in df.columns]] *)
Definition CASTE_COLS (df : frame) : list string :=
  filter (fun c => has_column df c) DEFAULT_CASTE_COLS.

(** [tooltip_fields] of the village layer. *)
Definition village_tooltip_fields (caste_cols : list string) : list string :=
  [VILLAGE_FIELD; "subdistrict"; "district"; AC_FIELD; DUMMY_AC_FIELD]
  ++ PARTY_SHARE_COLS ++ caste_cols.

(** [tooltip_fields] of the constituency layer. *)
Definition ac_tooltip_fields (group_key : string) (caste_cols : list string)
    (ac_gdf_columns : list string) : list string :=
  [group_key; "TDP_share"; "YSRCP_share"; "BJP_share"; "Others_share"]
  ++ filter (fun c => mem c ac_gdf_columns)
            (map weighted_name caste_cols).

(** [show_cols] of the village summary. *)
Definition show_cols (caste_cols : list string) (merged_columns : list string)
  : list string :=
  filter (fun c => mem c merged_columns)
         ([CSV_KEY; VILLAGE_FIELD; "subdistrict"; "district"; AC_FIELD;
           DUMMY_AC_FIELD] ++ PARTY_SHARE_COLS ++ caste_cols).

(* ================================================================== *)
(** * The AC aggregator, on a store of frame objects *)
(* ================================================================== *)

(** Frames are mutable objects: a variable holds a reference, and
    [df[c] = ...] writes into the object that every holder of the reference
    sees.  [Store.ac_aggregate] is the function with its objects in a
    store. *)
Module Store.

Definition loc : Type := nat.

(** The objects allocated so far, by address. *)
Definition heap : Type := list frame.

(** A computation on the store that may raise; the store survives. *)
Definition M (A : Type) : Type := heap -> heap * res A.

Definition ret {A : Type} (a : A) : M A := fun h => (h, Ok a).

Definition bind {A B : Type} (m : M A) (k : A -> M B) : M B :=
  fun h =>
    match m h with
    | (h', Ok a) => k a h'
    | (h', Raise e) => (h', Raise e)
    end.

Definition lift {A : Type} (r : res A) : M A := fun h => (h, r).

Notation "'do' x <- m ; k" := (bind m (fun x => k))
  (at level 10, x name, m at level 100, k at level 200).

Fixpoint update (h : heap) (l : loc) (f : frame) : heap :=
  match h, l with
  | [], _ => []
  | _ :: h', O => f :: h'
  | g :: h', S l' => g :: update h' l' f
  end.

(** Dereference; a reference to no object does not arise in Python and
    is a [ValueError] here. *)
Definition get (l : loc) : M frame :=
  fun h =>
    match nth_error h l with
    | Some f => (h, Ok f)
    | None => (h, Raise ValueError)
    end.

Definition put (l : loc) (f : frame) : M unit :=
  fun h => (update h l f, Ok tt).

(** A new object. *)
Definition alloc (f : frame) : M loc :=
  fun h => (h ++ [f], Ok (List.length h)).

Fixpoint for_each {A : Type} (l : list A) (body : A -> M unit) : M unit :=
  match l with
  | [] => ret tt
  | x :: l' => do _ <- body x ; for_each l' body
  end.

(** [df.copy()] *)
Definition df_copy (df : loc) : M loc :=
  do f <- get df ; alloc f.

(** [c in df.columns] *)
Definition df_has_column (df : loc) (c : string) : M bool :=
  do f <- get df ; ret (has_column f c).

(** [df[c]] read as values *)
Definition df_column (df : loc) (c : string) : M (list cell) :=
  do f <- get df ; ret (column f c).

(** [df[c] = vals]: a write into the object *)
Definition df_set_column (df : loc) (c : string) (vals : list cell)
  : M unit :=
  do f <- get df ; put df (set_column f c vals).

(** [df[c] = s] for a series: aligned on the index of [df] and written *)
Definition df_set_column_aligned (df : loc) (c : string) (s : series)
  : M unit :=
  do f <- get df ; put df (set_column_aligned f c s).

(** [df[[...]].copy()] *)
Definition df_select_copy (df : loc) (cs : list string) : M loc :=
  do f <- get df ; do t <- lift (select f cs) ; alloc t.

(** [df.groupby(key, dropna=False).agg({...}).reset_index()
       .rename(columns={key: new})]: the chain ends in a new object *)
Definition df_groupby_sums (df : loc) (key : string) (cs : list string)
    (new : string) : M loc :=
  do f <- get df ;
  do t <- lift (groupby_agg_sum f key cs) ;
  alloc (rename_column t key new).

Section WithParser.

Variable parse_number : pystr -> num.

(** One turn of the coercion loop. *)
Definition coerce_step (work : loc) (c : string) : M unit :=
  do present <- df_has_column work c ;
  if present then
    do v <- df_column work c ;
    df_set_column work c (to_numeric_column parse_number v)
  else ret tt.

(** One turn of the share loop. *)
Definition share_step (agg : loc) (oc : string * string) : M unit :=
  do counts <- df_column agg (snd oc) ;
  do totals <- df_column agg TOTAL_VOTES_COL ;
  df_set_column agg (fst oc) (share_values counts totals).

(** One turn of the caste loop. *)
Definition weighted_step (work agg : loc) (group_key c : string)
  : M unit :=
  do present <- df_has_column work c ;
  if present then
    if String.eqb c group_key || String.eqb c TOTAL_VOTES_COL
    then lift (Raise TypeError)
    else
      do wdf <- df_select_copy work [group_key; c; TOTAL_VOTES_COL] ;
      do v <- df_column wdf c ;
      do _ <- df_set_column wdf c (to_numeric_column parse_number v) ;
      do t <- df_column wdf TOTAL_VOTES_COL ;
      do _ <- df_set_column wdf TOTAL_VOTES_COL
                (to_numeric_column parse_number t) ;
      do keys <- df_column wdf group_key ;
      do field <- df_column wdf c ;
      do votes <- df_column wdf TOTAL_VOTES_COL ;
      df_set_column_aligned agg (weighted_name c)
        (weighted_values keys field votes)
  else ret tt.

Definition ac_aggregate (df_in : loc) (group_key : string)
    (caste_cols : list string) : M loc :=
  do work <- df_copy df_in ;
  do _ <- for_each NUMERIC_COLS (coerce_step work) ;
  do agg <- df_groupby_sums work group_key SUM_COLS "AC_key" ;
  do _ <- for_each share_map (share_step agg) ;
  do _ <- for_each caste_cols (weighted_step work agg group_key) ;
  ret agg.

End WithParser.

End Store.

(* ================================================================== *)
(** * The tabular loader *)
(* ================================================================== *)

(** What [df.get(AC_FIELD, "")] puts on each row when it is assigned to a
    column: the constituency name if the sheet has that column, the empty
    text otherwise. *)
Definition ac_name_or_blank (df : frame) : list cell :=
  if has_column df AC_FIELD then column df AC_FIELD
  else repeat (Str []) (List.length (rows df)).

Section Sheet.

Variable upper_char : N -> pystr.
Variable str_of_num : num -> pystr.

(** [load_sheet], from what [pd.read_csv(url, dtype={CSV_KEY: str})]
    returned. *)
Definition load_sheet (file : frame) : res frame :=
  df <- normalize_key_column upper_char str_of_num file CSV_KEY ;;
  if negb (has_column df DUMMY_AC_FIELD)
  then Ok (set_column df DUMMY_AC_FIELD (ac_name_or_blank df))
  else Ok df.

End Sheet.

(* ================================================================== *)
(** * The village layer and the summaries *)
(* ================================================================== *)

(** One turn of the loop over the tooltip fields:
    [if f not in merged.columns: merged[f] = None]. *)
Definition ensure_column (m : frame) (f : string) : frame :=
  if negb (has_column m f)
  then set_column m f (repeat NA (List.length (rows m)))
  else m.

Definition ensure_columns (m : frame) (fields : list string) : frame :=
  fold_left ensure_column fields m.

(** [aliases] of the village layer. *)
Definition village_aliases (caste_cols : list string) : list string :=
  ["Village"; "Subdistrict"; "District"; "AC (orig.)"; "AC (dummy)"]
  ++ ["TDP %"; "YSRCP %"; "BJP %"; "Others %"] ++ caste_cols.

(** [df.head(n)] *)
Definition head (n : nat) (f : frame) : frame :=
  {| columns := columns f; rows := firstn n (rows f) |}.

(** The village summary: [merged[show_cols].head(200)], with [show_cols]
    the listed columns that [merged] has. *)
Definition village_summary (m : frame) (caste_cols : list string)
  : res frame :=
  t <- select m (show_cols caste_cols (columns m)) ;;
  Ok (head 200 t).

(* ================================================================== *)
(** * Notions used in the statements *)
(* ================================================================== *)

(** A finite number in lowest terms; every result of the arithmetic is. *)
Definition canon (x : num) : Prop :=
  match x with
  | Fin q => Qred q = q
  | _ => True
  end.

(** A column name that is not of the form [c + "_weighted"]. *)
Definition plain_name (c : string) : Prop :=
  forall c0, c <> weighted_name c0.

(** Two rows that hold the same values outside the weighted columns. *)
Definition agrees_on_plain (r r' : row) : Prop :=
  forall c, plain_name c -> row_get r' c = row_get r c.

Fixpoint last_char (s : string) : option ascii :=
  match s with
  | EmptyString => None
  | String a EmptyString => Some a
  | String _ s' => last_char s'
  end.

Section AggregatorNotions.

Variable parse_number : pystr -> num.

(** The effect of the coercion loop on one row of a frame with the
    columns [cols]. *)
Definition coerce_cell (cols : list string) (r : row) (c : string) : row :=
  if mem c cols
  then row_set r c (Num (to_numeric parse_number (row_get r c)))
  else r.

Definition coerce_row (cols : list string) (r : row) : row :=
  fold_left (coerce_cell cols) NUMERIC_COLS r.

(** The effect of one turn of the share loop on one row. *)
Definition share_row (r : row) (oc : string * string) : row :=
  row_set r (fst oc)
    (Num (share_of (as_num (row_get r (snd oc)))
                   (as_num (row_get r TOTAL_VOTES_COL)))).

(** The coerced values of column [c] in the rows of [df] whose key in
    column [key] is [k]. *)
Definition group_column (df : frame) (key : string) (k : cell) (c : string)
  : list num :=
  map (fun r => to_numeric parse_number (row_get r c))
      (filter (fun r => cell_eqb k (row_get r key)) (rows df)).

(** The sum the aggregator reports for group [k] and column [c]. *)
Definition group_total (df : frame) (key : string) (k : cell) (c : string)
  : num :=
  sum_skipna 0 (group_column df key k c).

(** The record of group [k] before the weighted columns are added. *)
Definition sums_row (df : frame) (key : string) (k : cell) : row :=
  ("AC_key", k)
  :: map (fun c => (c, Num (group_total df key k c))) SUM_COLS.

Definition base_row (df : frame) (key : string) (k : cell) : row :=
  fold_left share_row share_map (sums_row df key k).

(** The inputs on which [ac_aggregate] runs to its end: the grouping
    column and the five summed columns are there, the grouping column is
    none of the coerced ones, and no caste column that is present is the
    grouping column or the total. *)
Definition aggregable (df : frame) (key : string) (caste_cols : list string)
  : bool :=
  has_column df key
  && negb (mem key NUMERIC_COLS)
  && forallb (has_column df) SUM_COLS
  && forallb (fun c => negb (has_column df c)
                       || negb (String.eqb c key
                                || String.eqb c TOTAL_VOTES_COL))
             caste_cols.

End AggregatorNotions.


(** The frame [df] with the rows [rs] in place of its own. *)
Definition with_rows (df : frame) (rs : list row) : frame :=
  {| columns := columns df; rows := rs |}.


(** The cell of row [i] (from 0) and column [c] of a result. *)
Definition cell_at (r : res frame) (i : nat) (c : string) : option cell :=
  match r with
  | Ok f =>
      match nth_error (rows f) i with
      | Some r => Some (row_get r c)
      | None => None
      end
  | Raise _ => None
  end.

(** The columns of a result, none when an exception was raised. *)
Definition columns_of (r : res frame) : option (list string) :=
  match r with
  | Ok f => Some (columns f)
  | Raise _ => None
  end.

(** The number of records of a result. *)
Definition row_count (r : res frame) : option nat :=
  match r with
  | Ok f => Some (List.length (rows f))
  | Raise _ => None
  end.

(* ------------------------------------------------------------------ *)
(** ** Village collections of the worked examples *)

Definition int_cell (z : Z) : cell := Num (Fin (inject_Z z)).

Definition VILLAGE_COLUMNS : list string :=
  [DUMMY_AC_FIELD; TOTAL_VOTES_COL; "TDP_votes"; "YSRCP_votes"; "BJP_votes";
   "Others_votes"; "SC_pct"].

(** A village row: its constituency, its total, the four counts and the
    percentage of one demographic field. *)
Definition village (ac total tdp ysrcp bjp others sc : cell) : row :=
  [(DUMMY_AC_FIELD, ac); (TOTAL_VOTES_COL, total); ("TDP_votes", tdp);
   ("YSRCP_votes", ysrcp); ("BJP_votes", bjp); ("Others_votes", others);
   ("SC_pct", sc)].

(** Two villages of constituency [ac] with totals 100 and 300 and field
    values 20 and 60. *)
Definition two_villages (ac : cell) : frame :=
  {| columns := VILLAGE_COLUMNS;
     rows :=
       [village ac (int_cell 100) (int_cell 20) (int_cell 30) (int_cell 40)
                (int_cell 10) (int_cell 20);
        village ac (int_cell 300) (int_cell 60) (int_cell 90) (int_cell 120)
                (int_cell 30) (int_cell 60)] |}.

(** The same two villages, the field missing in the second. *)
Definition two_villages_one_field (ac : cell) : frame :=
  {| columns := VILLAGE_COLUMNS;
     rows :=
       [village ac (int_cell 100) (int_cell 20) (int_cell 30) (int_cell 40)
                (int_cell 10) (int_cell 20);
        village ac (int_cell 300) (int_cell 60) (int_cell 90) (int_cell 120)
                (int_cell 30) NA] |}.

(** One village that reports 5 votes for a party and a total of 0. *)
Definition village_without_total : frame :=
  {| columns := VILLAGE_COLUMNS;
     rows :=
       [village (Str (py "X")) (int_cell 0) (int_cell 5) (int_cell 0)
                (int_cell 0) (int_cell 0) (int_cell 20)] |}.


(** A word: not empty and free of whitespace. *)
Definition good_word (w : pystr) : Prop :=
  w <> [] /\ Forall (fun c => isspace c = false) w.

(* ------------------------------------------------------------------ *)
(** ** Geometry frames of the worked examples *)

(** In the examples a geometry is the list of the numbers of the parcels
    it covers, and the union of geometries covers the parcels of all. *)
Definition parcels : Type := list nat.

Definition parcels_union (gs : list parcels) : parcels := List.concat gs.

(** A reprojection that always fails, and a CRS that pyproj does not
    identify. *)
Definition failing_to_crs (g : geo_frame parcels) (epsg : Z)
  : res (geo_frame parcels) := Raise ValueError.

Definition unidentified_epsg (c : string) : res (option Z) := Ok None.

(** The number of features of a result, none when it raised. *)
Definition feature_count {G : Type} (r : res (geo_frame G)) : option nat :=
  match r with
  | Ok g => Some (List.length (features g))
  | Raise _ => None
  end.

(** The geometry and the value in column [c] of each feature. *)
Definition feature_keys {G : Type} (c : string) (r : res (geo_frame G))
  : option (list (G * cell)) :=
  match r with
  | Ok g => Some (map (fun ft => (fst ft, row_get (snd ft) c)) (features g))
  | Raise _ => None
  end.

(** The attribute table of a result. *)
Definition table_of {G : Type} (r : res (geo_frame G)) : res frame :=
  match r with
  | Ok g => Ok (table g)
  | Raise e => Raise e
  end.

(** Two villages read from a shapefile. *)
Definition two_shapes : geo_frame parcels :=
  {| gcolumns := [SHP_REGION_FIELD];
     features := [([1%nat], [(SHP_REGION_FIELD, Str (py "V1"))]);
                  ([2%nat], [(SHP_REGION_FIELD, Str (py "V2"))])];
     gcrs := Some "EPSG:32644" |}.


(** A sheet that knows village [V1] only. *)
Definition sheet_of_one : frame :=
  {| columns := [CSV_KEY; DUMMY_AC_FIELD];
     rows := [[(CSV_KEY, Str (py "V1")); (DUMMY_AC_FIELD, Str (py "X"))]] |}.

(** A merged collection of three villages: two of constituency [X], and
    one that found no line in the sheet, its constituency missing. *)
Definition merged_with_unmatched : geo_frame parcels :=
  {| gcolumns := VILLAGE_COLUMNS;
     features :=
       [([1%nat],
         village (Str (py "X")) (int_cell 100) (int_cell 20) (int_cell 30)
                 (int_cell 40) (int_cell 10) (int_cell 20));
        ([2%nat],
         village (Str (py "X")) (int_cell 300) (int_cell 60) (int_cell 90)
                 (int_cell 120) (int_cell 30) (int_cell 60));
        ([3%nat], village NA NA NA NA NA NA NA)];
     gcrs := Some "EPSG:4326" |}.

(** A shapefile and a sheet that both carry a column [SC_pct]. *)
Definition shapes_with_SC_pct : geo_frame parcels :=
  {| gcolumns := [SHP_REGION_FIELD; "SC_pct"];
     features := [([1%nat], [(SHP_REGION_FIELD, Str (py "V1"));
                             ("SC_pct", int_cell 11)])];
     gcrs := Some "EPSG:4326" |}.

Definition sheet_with_SC_pct : frame :=
  {| columns := CSV_KEY :: VILLAGE_COLUMNS;
     rows := [(CSV_KEY, Str (py "V1"))
              :: village (Str (py "X")) (int_cell 100) (int_cell 20)
                         (int_cell 30) (int_cell 40) (int_cell 10)
                         (int_cell 20)] |}.

(** The columns of the aggregate before the weighted ones. *)
Definition BASE_COLUMNS : list string :=
  "AC_key" :: SUM_COLS ++ map fst share_map.


(* ------------------------------------------------------------------ *)
(** ** Notions on the store *)

(** The computation [m], started in a store with at least [n] objects,
    leaves the objects below address [n] as they are, keeps at least [n]
    objects, and returns, if it returns, a value that satisfies [P]. *)
Definition preserves {A : Type} (n : nat) (P : A -> Prop) (m : Store.M A)
  : Prop :=
  forall h,
    (n <= List.length h)%nat ->
    (n <= List.length (fst (m h)))%nat
    /\ (forall l, (l < n)%nat -> nth_error (fst (m h)) l = nth_error h l)
    /\ (forall a, snd (m h) = Ok a -> P a).

(** A store with one frame, in which that frame is object 0. *)
Definition store_of (f : frame) : Store.heap := [f].

(** The frame a computation returns a reference to. *)
Definition result_frame (hr : Store.heap * res Store.loc) : res frame :=
  match snd hr with
  | Ok l =>
      match nth_error (fst hr) l with
      | Some f => Ok f
      | None => Raise ValueError
      end
  | Raise e => Raise e
  end.

(** The outcome of a step that returns nothing, from the frame value the
    step computes. *)
Definition outcome_of (r : res frame) : res unit :=
  match r with
  | Ok _ => Ok tt
  | Raise e => Raise e
  end.

(** A coerced input that is a finite number, or missing. *)
Definition finite_or_missing (x : num) : Prop :=
  match x with
  | Fin _ | NaN => True
  | _ => False
  end.

(** The keys of the records of an aggregate, in order. *)
Definition record_keys (agg : frame) : list cell :=
  column agg "AC_key".

(** A key that is a string or missing, as a constituency name is. *)
Definition text_or_missing (k : cell) : Prop :=
  match k with
  | Str _ | Num NaN => True
  | _ => False
  end.

(** Two rows that hold the same values in the columns [cs]. *)
Definition agree_on (cs : list string) (r r' : row) : Prop :=
  forall c, In c cs -> row_get r c = row_get r' c.

(** The columns the aggregator reads: the grouping column, the five
    summed columns and the caste columns. *)
Definition columns_read (key : string) (caste_cols : list string)
  : list string :=
  key :: SUM_COLS ++ caste_cols.

(** Two villages of constituency [X] with a vote-share column, whose
    content the two parameters give. *)
Definition villages_with_share (s1 s2 : cell) : frame :=
  {| columns := VILLAGE_COLUMNS ++ ["TDP_vote_share"];
     rows :=
       [village (Str (py "X")) (int_cell 100) (int_cell 20) (int_cell 30)
                (int_cell 40) (int_cell 10) (int_cell 20)
        ++ [("TDP_vote_share", s1)];
        village (Str (py "X")) (int_cell 300) (int_cell 60) (int_cell 90)
                (int_cell 120) (int_cell 30) (int_cell 60)
        ++ [("TDP_vote_share", s2)]] |}.

(* ================================================================== *)
(** * Properties of the number model *)
(* ================================================================== *)

#[global] Arguments Qred : simpl never.
#[global] Arguments Qplus : simpl never.
#[global] Arguments Qmult : simpl never.
#[global] Arguments Qdiv : simpl never.
#[global] Arguments Qminus : simpl never.
#[global] Arguments Qopp : simpl never.
#[global] Arguments Qinv : simpl never.

Lemma Qred_eq_of_Qeq (a b : Q) : (a == b)%Q -> Qred a = Qred b.
Proof. apply Qred_complete. Qed.

Lemma num_add_comm (x y : num) : num_add x y = num_add y x.
Proof.
  destruct x, y; simpl; try reflexivity.
  f_equal. apply Qred_eq_of_Qeq. ring.
Qed.

Lemma num_add_assoc (x y z : num) :
  num_add (num_add x y) z = num_add x (num_add y z).
Proof.
  destruct x, y, z; simpl; try reflexivity.
  f_equal. apply Qred_eq_of_Qeq. rewrite !Qred_correct. ring.
Qed.

Lemma canon_num_add (x y : num) : canon (num_add x y).
Proof.
  destruct x, y; simpl; auto. apply Qred_complete, Qred_correct.
Qed.

Lemma num_add_0_r (x : num) : canon x -> num_add x (Fin 0) = x.
Proof.
  destruct x; simpl; auto. intros H. f_equal.
  rewrite <- H at 2. apply Qred_eq_of_Qeq. ring.
Qed.

Lemma num_add_0_l (x : num) : canon x -> num_add (Fin 0) x = x.
Proof. intros H. rewrite num_add_comm. now apply num_add_0_r. Qed.

Lemma fold_add_canon (xs : list num) (a : num) :
  canon a -> canon (fold_left num_add xs a).
Proof.
  revert a. induction xs as [|x xs IH]; simpl; intros a Ha; auto.
  apply IH, canon_num_add.
Qed.

Lemma fold_add_shift (xs : list num) (a : num) :
  canon a ->
  fold_left num_add xs a = num_add a (fold_left num_add xs (Fin 0)).
Proof.
  revert a. induction xs as [|x xs IH]; cbn [fold_left]; intros a Ha.
  - symmetry. now apply num_add_0_r.
  - rewrite IH by apply canon_num_add.
    rewrite (IH (num_add (Fin 0) x)) by apply canon_num_add.
    rewrite <- num_add_assoc. f_equal.
    destruct a, x; simpl; auto. f_equal.
    apply Qred_eq_of_Qeq. rewrite Qred_correct. ring.
Qed.

Lemma sum_skipna_canon (m : nat) (xs : list num) : canon (sum_skipna m xs).
Proof.
  unfold sum_skipna. destruct (_ <? _)%nat; simpl; auto.
  apply fold_add_canon. reflexivity.
Qed.

(** The sum of a list put together from two is the sum of the two sums. *)
Lemma sum_skipna_app (a b : list num) :
  sum_skipna 0 (a ++ b) = num_add (sum_skipna 0 a) (sum_skipna 0 b).
Proof.
  unfold sum_skipna. simpl. rewrite filter_app, fold_left_app.
  rewrite fold_add_shift; auto.
  apply fold_add_canon. reflexivity.
Qed.

Lemma fold_add_perm (xs ys : list num) :
  Permutation xs ys ->
  forall a, fold_left num_add xs a = fold_left num_add ys a.
Proof.
  induction 1; simpl; intros a; auto.
  - now rewrite !num_add_assoc, (num_add_comm y x).
  - now rewrite IHPermutation1.
Qed.

Lemma filter_perm {A : Type} (p : A -> bool) (xs ys : list A) :
  Permutation xs ys -> Permutation (filter p xs) (filter p ys).
Proof.
  induction 1; simpl; auto.
  - destruct (p x); auto.
  - destruct (p x), (p y); auto. apply perm_swap.
  - eapply perm_trans; eauto.
Qed.

(** The sum does not depend on the order of the rows. *)
Lemma sum_skipna_perm (m : nat) (xs ys : list num) :
  Permutation xs ys -> sum_skipna m xs = sum_skipna m ys.
Proof.
  intros H. unfold sum_skipna.
  pose proof (filter_perm (fun x => negb (is_nan x)) _ _ H) as Hf.
  rewrite (Permutation_length Hf).
  destruct (_ <? _)%nat; auto. now apply fold_add_perm.
Qed.

(* ------------------------------------------------------------------ *)
(** ** Rounding and the share formula *)

Lemma rint_nonneg (q : Q) : (0 <= q)%Q -> (0 <= rint q)%Z.
Proof.
  intros H. unfold rint.
  assert (0 <= Qfloor q)%Z.
  { change 0%Z with (Qfloor 0). now apply Qfloor_resp_le. }
  destruct (Qcompare _ _); try destruct (Z.even _); lia.
Qed.


Lemma Qzero_b_false_of_pos (t : Q) : (0 < t)%Q -> Qzero_b t = false.
Proof.
  intros H. unfold Qzero_b. destruct (Qeq_bool t 0) eqn:E; auto.
  apply Qeq_bool_iff in E. rewrite E in H. now apply Qlt_irrefl in H.
Qed.


(** Without the bound on the count the share is still not negative. *)
Lemma share_of_nonneg (s t : Q) :
  (0 < t)%Q -> (0 <= s)%Q ->
  exists q, share_of (Fin s) (Fin t) = Fin q /\ (0 <= q)%Q.
Proof.
  intros Ht Hs. unfold share_of. simpl.
  rewrite (Qzero_b_false_of_pos t Ht). simpl.
  eexists. split; [reflexivity|].
  rewrite !Qred_correct.
  apply Qle_shift_div_l; [reflexivity|]. rewrite Qmult_0_l.
  change 0%Q with (inject_Z 0). rewrite <- Zle_Qle. apply rint_nonneg.
  rewrite !Qred_correct.
  apply Qmult_le_0_compat; [|discriminate].
  apply Qmult_le_0_compat; [|discriminate].
  apply Qle_shift_div_l; auto. now rewrite Qmult_0_l.
Qed.

(* ================================================================== *)
(** * Rows, columns and groups *)
(* ================================================================== *)

Lemma row_get_set_same (r : row) (c : string) (v : cell) :
  row_get (row_set r c v) c = v.
Proof.
  induction r as [|[c' v'] r IH]; simpl.
  - now rewrite String.eqb_refl.
  - destruct (String.eqb c' c) eqn:E; simpl; now rewrite E.
Qed.

Lemma row_get_set_other (r : row) (c c' : string) (v : cell) :
  c <> c' -> row_get (row_set r c v) c' = row_get r c'.
Proof.
  intros Hne. induction r as [|[c0 v0] r IH]; simpl.
  - destruct (String.eqb c c') eqn:E; auto.
    apply String.eqb_eq in E. contradiction.
  - destruct (String.eqb c0 c) eqn:E; simpl.
    + apply String.eqb_eq in E. subst c0.
      destruct (String.eqb c c') eqn:E'; auto.
      apply String.eqb_eq in E'. contradiction.
    + destruct (String.eqb c0 c'); auto.
Qed.

Lemma combine_map_r {A B : Type} (h : A -> B) (l : list A) :
  combine l (map h l) = map (fun a => (a, h a)) l.
Proof. induction l; simpl; congruence. Qed.

Lemma combine_map_map {A B C : Type} (g : A -> B) (h : A -> C) (l : list A) :
  combine (map g l) (map h l) = map (fun a => (g a, h a)) l.
Proof. induction l; simpl; congruence. Qed.

(** Writing values computed row by row is a map over the rows. *)
Lemma set_column_map (f : frame) (c : string) (h : row -> cell) :
  set_column f c (map h (rows f))
  = {| columns := if has_column f c then columns f else columns f ++ [c];
       rows := map (fun r => row_set r c (h r)) (rows f) |}.
Proof.
  unfold set_column. f_equal. rewrite combine_map_r, map_map. reflexivity.
Qed.

Lemma mem_true_iff (c : string) (l : list string) :
  mem c l = true <-> In c l.
Proof.
  unfold mem. rewrite existsb_exists. split.
  - intros (x & Hx & E). apply String.eqb_eq in E. now subst.
  - intros H. exists c. split; auto. apply String.eqb_refl.
Qed.

Lemma mem_false_iff (c : string) (l : list string) :
  mem c l = false <-> ~ In c l.
Proof.
  rewrite <- mem_true_iff. destruct (mem c l); split; intros; auto;
    try discriminate. now contradiction H.
Qed.

(* ------------------------------------------------------------------ *)
(** ** Names of weighted columns *)

Lemma last_char_append (a b : string) :
  b <> EmptyString -> last_char (a ++ b)%string = last_char b.
Proof.
  intros Hb. induction a as [|x a IH]; simpl; auto.
  destruct (a ++ b)%string eqn:E.
  - destruct a; simpl in E; [contradiction|discriminate].
  - exact IH.
Qed.

Lemma last_char_weighted (c : string) :
  last_char (weighted_name c) = Some "d"%char.
Proof.
  unfold weighted_name. rewrite last_char_append by discriminate.
  reflexivity.
Qed.

(** A name that does not end in [d] is no weighted column. *)
Lemma plain_of_last_char (c : string) :
  last_char c <> Some "d"%char -> plain_name c.
Proof.
  intros H c0 E. apply H. rewrite E. apply last_char_weighted.
Qed.

Lemma string_length_append (a b : string) :
  String.length (a ++ b) = (String.length a + String.length b)%nat.
Proof. induction a; simpl; auto. Qed.

Lemma append_inj_l (a b s : string) :
  (a ++ s)%string = (b ++ s)%string -> a = b.
Proof.
  revert b. induction a as [|x a IH]; intros [|y b] E; simpl in E; auto.
  - exfalso. apply (f_equal String.length) in E. simpl in E.
    rewrite string_length_append in E. lia.
  - exfalso. apply (f_equal String.length) in E. simpl in E.
    rewrite string_length_append in E. lia.
  - inversion E; subst. f_equal. now apply IH.
Qed.

Lemma weighted_name_inj (a b : string) :
  weighted_name a = weighted_name b -> a = b.
Proof. apply append_inj_l. Qed.

Lemma agrees_on_plain_refl (r : row) : agrees_on_plain r r.
Proof. intros c _. reflexivity. Qed.

Lemma agrees_on_plain_trans (r1 r2 r3 : row) :
  agrees_on_plain r1 r2 -> agrees_on_plain r2 r3 -> agrees_on_plain r1 r3.
Proof. intros H1 H2 c Hc. now rewrite H2, H1. Qed.

Lemma agrees_on_plain_set (r : row) (c0 : string) (v : cell) :
  agrees_on_plain r (row_set r (weighted_name c0) v).
Proof.
  intros c Hc. apply row_get_set_other. intros E. now apply (Hc c0).
Qed.

(* ------------------------------------------------------------------ *)
(** ** Equality of keys *)

Lemma pystr_eqb_eq (a b : pystr) : pystr_eqb a b = true <-> a = b.
Proof.
  revert b. induction a as [|x a IH]; intros [|y b]; simpl;
    try (split; [discriminate|intros E; discriminate E]); try tauto.
  rewrite andb_true_iff, N.eqb_eq, IH. split.
  - intros [-> ->]. reflexivity.
  - intros E. inversion E. auto.
Qed.

Lemma num_eqb_refl (x : num) : num_eqb x x = true.
Proof. destruct x; simpl; auto. apply Qeq_bool_refl. Qed.

Lemma cell_eqb_refl (a : cell) : cell_eqb a a = true.
Proof.
  destruct a; simpl.
  - apply num_eqb_refl.
  - now apply pystr_eqb_eq.
Qed.

Lemma Qeq_bool_congr (a b x : Q) :
  Qeq_bool a b = true -> Qeq_bool a x = Qeq_bool b x.
Proof.
  intros H. apply Qeq_bool_iff in H.
  destruct (Qeq_bool a x) eqn:E1, (Qeq_bool b x) eqn:E2; auto.
  - apply Qeq_bool_iff in E1. apply Qeq_bool_neq in E2.
    exfalso. apply E2. now rewrite <- H.
  - apply Qeq_bool_iff in E2. apply Qeq_bool_neq in E1.
    exfalso. apply E1. now rewrite H.
Qed.

(** Equal keys select the same rows. *)
Lemma cell_eqb_congr (a b x : cell) :
  cell_eqb a b = true -> cell_eqb a x = cell_eqb b x.
Proof.
  destruct a as [p|s], b as [q|t]; simpl; try discriminate.
  - destruct x as [y|u]; auto.
    destruct p, q; simpl; try discriminate; auto.
    destruct y; simpl; auto. apply Qeq_bool_congr.
  - intros E. apply pystr_eqb_eq in E. now subst.
Qed.

Lemma cell_eqb_sym (a b : cell) : cell_eqb a b = cell_eqb b a.
Proof.
  destruct (cell_eqb a b) eqn:E.
  - rewrite <- (cell_eqb_congr a b a E). symmetry. apply cell_eqb_refl.
  - destruct (cell_eqb b a) eqn:E'; auto.
    rewrite <- (cell_eqb_congr b a b E'), cell_eqb_refl in E. discriminate.
Qed.

(* ------------------------------------------------------------------ *)
(** ** Group labels *)

Lemma insert_key_keeps (k x : cell) (l : list cell) :
  In x l -> In x (insert_key k l).
Proof.
  induction l as [|h t IH]; simpl; [tauto|].
  intros H. destruct (cell_eqb k h); [exact H|].
  destruct (cell_ltb k h); simpl; intuition.
Qed.

Lemma insert_key_has (k : cell) (l : list cell) :
  exists k0, In k0 (insert_key k l) /\ cell_eqb k k0 = true.
Proof.
  induction l as [|h t IH]; simpl.
  - exists k. split; auto. apply cell_eqb_refl.
  - destruct (cell_eqb k h) eqn:E.
    + exists h. simpl. auto.
    + destruct (cell_ltb k h).
      * exists k. split; [now left|apply cell_eqb_refl].
      * destruct IH as (k0 & Hin & He). exists k0. simpl. auto.
Qed.

Lemma insert_key_from (k x : cell) (l : list cell) :
  In x (insert_key k l) -> x = k \/ In x l.
Proof.
  induction l as [|h t IH]; simpl.
  - intuition.
  - destruct (cell_eqb k h); [simpl; intuition|].
    destruct (cell_ltb k h); simpl; intuition.
Qed.

Lemma fold_insert_keeps (keys acc : list cell) (x : cell) :
  In x acc -> In x (fold_left (fun a k => insert_key k a) keys acc).
Proof.
  revert acc. induction keys as [|k keys IH]; simpl; intros acc H; auto.
  apply IH. now apply insert_key_keeps.
Qed.

Lemma fold_insert_has (keys acc : list cell) (k : cell) :
  In k keys ->
  exists k0, In k0 (fold_left (fun a k => insert_key k a) keys acc)
             /\ cell_eqb k k0 = true.
Proof.
  revert acc. induction keys as [|k1 keys IH]; simpl; intros acc H; [tauto|].
  destruct H as [->|H].
  - destruct (insert_key_has k acc) as (k0 & Hin & He).
    exists k0. split; auto. now apply fold_insert_keeps.
  - now apply IH.
Qed.

Lemma fold_insert_from (keys acc : list cell) (x : cell) :
  In x (fold_left (fun a k => insert_key k a) keys acc) ->
  In x keys \/ In x acc.
Proof.
  revert acc. induction keys as [|k keys IH]; simpl; intros acc H; auto.
  apply IH in H. destruct H as [H|H]; auto.
  apply insert_key_from in H. intuition.
Qed.

(** Every key of the column has its group, the missing key too. *)
Lemma group_keys_has (keys : list cell) (k : cell) :
  In k keys ->
  exists k0, In k0 (group_keys false keys) /\ cell_eqb k k0 = true.
Proof. apply fold_insert_has. Qed.

(** Every group label is a key of the column. *)
Lemma group_keys_from (dropna : bool) (keys : list cell) (k : cell) :
  In k (group_keys dropna keys) -> In k keys.
Proof.
  unfold group_keys. intros H. apply fold_insert_from in H.
  destruct H as [H|[]]. destruct dropna; auto.
  now apply filter_In in H.
Qed.

(** With [dropna] no group is labelled by the missing key. *)
Lemma group_keys_dropna (keys : list cell) (k : cell) :
  In k (group_keys true keys) -> isna k = false.
Proof.
  unfold group_keys. intros H. apply fold_insert_from in H.
  destruct H as [H|[]]. apply filter_In in H.
  destruct H as [_ H]. now apply negb_true_iff in H.
Qed.

Lemma group_values_map {A : Type} (k : cell) (key : A -> cell)
    (val : A -> num) (l : list A) :
  group_values k (map key l) (map val l)
  = map val (filter (fun a => cell_eqb k (key a)) l).
Proof.
  unfold group_values. rewrite combine_map_map.
  induction l as [|a l IH]; simpl; auto.
  destruct (cell_eqb k (key a)); simpl; now rewrite IH.
Qed.

(* ================================================================== *)
(** * The order of group keys *)
(* ================================================================== *)

Lemma pystr_ltb_irrefl (a : pystr) : pystr_ltb a a = false.
Proof.
  induction a as [|x a IH]; simpl; auto.
  now rewrite N.ltb_irrefl, N.eqb_refl, IH.
Qed.

Lemma pystr_ltb_trans (a b c : pystr) :
  pystr_ltb a b = true -> pystr_ltb b c = true -> pystr_ltb a c = true.
Proof.
  revert b c. induction a as [|x a IH]; intros [|y b] [|z c]; simpl;
    try discriminate; auto.
  rewrite !orb_true_iff, !andb_true_iff, !N.ltb_lt, !N.eqb_eq.
  intros [H1|[H1 H1']] [H2|[H2 H2']].
  - left. lia.
  - left. lia.
  - left. lia.
  - right. split; [lia|]. eapply IH; eauto.
Qed.

Lemma pystr_ltb_total (a b : pystr) :
  pystr_eqb a b = false -> pystr_ltb a b = false -> pystr_ltb b a = true.
Proof.
  revert b. induction a as [|x a IH]; intros [|y b]; simpl;
    try discriminate; auto.
  intros He Hl. apply orb_false_iff in Hl. destruct Hl as [Hl1 Hl2].
  apply N.ltb_ge in Hl1.
  destruct (N.eqb_spec x y) as [->|Hne].
  - simpl in He, Hl2. rewrite N.ltb_irrefl, N.eqb_refl. simpl. now apply IH.
  - assert (H : (y < x)%N) by lia. apply N.ltb_lt in H. now rewrite H.
Qed.

Lemma num_ltb_not_eq (x y : num) : num_eqb x y = true -> num_ltb x y = false.
Proof.
  destruct x, y; simpl; try discriminate; auto.
  intros H. apply Qeq_bool_iff in H. apply negb_false_iff.
  apply Qle_bool_iff. rewrite H. apply Qle_refl.
Qed.

Lemma Qlt_bool_iff (a b : Q) : negb (Qle_bool b a) = true <-> (a < b)%Q.
Proof.
  rewrite negb_true_iff. split.
  - intros H. apply Qnot_le_lt. intros Hle.
    apply Qle_bool_iff in Hle. congruence.
  - intros H. destruct (Qle_bool b a) eqn:E; auto.
    apply Qle_bool_iff in E. exfalso. eapply Qlt_not_le; eauto.
Qed.

Lemma num_ltb_trans (x y z : num) :
  num_ltb x y = true -> num_ltb y z = true -> num_ltb x z = true.
Proof.
  destruct x, y, z; simpl; try discriminate; auto.
  rewrite !Qlt_bool_iff. apply Qlt_trans.
Qed.

Lemma num_ltb_total (x y : num) :
  num_eqb x y = false -> num_ltb x y = false -> num_ltb y x = true.
Proof.
  destruct x, y; simpl; try discriminate; auto.
  intros He Hl. apply Qlt_bool_iff.
  apply negb_false_iff in Hl. apply Qle_bool_iff in Hl.
  apply Qle_lt_or_eq in Hl. destruct Hl as [Hl|Hl]; auto.
  apply Qeq_bool_neq in He. exfalso. apply He. now symmetry.
Qed.

(** A key is not below a key equal to it. *)
Lemma cell_ltb_not_eq (a b : cell) :
  cell_eqb a b = true -> cell_ltb a b = false.
Proof.
  destruct a as [x|s], b as [y|t]; simpl; try discriminate.
  - intros H. pose proof (num_ltb_not_eq x y H) as Hn.
    destruct x, y; simpl in *; try discriminate; auto.
  - intros H. apply pystr_eqb_eq in H. subst. apply pystr_ltb_irrefl.
Qed.

Lemma cell_ltb_trans (a b c : cell) :
  cell_ltb a b = true -> cell_ltb b c = true -> cell_ltb a c = true.
Proof.
  destruct a as [x|s], b as [y|t], c as [z|u];
    try (destruct x); try (destruct y); try (destruct z); simpl;
    try discriminate; auto.
  - rewrite !Qlt_bool_iff. apply Qlt_trans.
  - apply pystr_ltb_trans.
Qed.

(** Of two different keys one is below the other. *)
Lemma cell_ltb_total (a b : cell) :
  cell_eqb a b = false -> cell_ltb a b = false -> cell_ltb b a = true.
Proof.
  destruct a as [x|s], b as [y|t];
    try (destruct x); try (destruct y); simpl; try discriminate; auto.
  - intros He Hl. apply (num_ltb_total (Fin q) (Fin q0)); auto.
  - apply pystr_ltb_total.
Qed.

Lemma insert_key_sorted (k : cell) (l : list cell) :
  StronglySorted (fun a b => cell_ltb a b = true) l ->
  StronglySorted (fun a b => cell_ltb a b = true) (insert_key k l).
Proof.
  induction 1 as [|h t Ht IH Hh]; simpl.
  - repeat constructor.
  - destruct (cell_eqb k h) eqn:E; [now constructor|].
    destruct (cell_ltb k h) eqn:L.
    + constructor; [now constructor|]. constructor; auto.
      rewrite Forall_forall in Hh |- *. intros x Hx.
      eapply cell_ltb_trans; eauto.
    + constructor; auto. rewrite Forall_forall in Hh |- *.
      intros x Hx. apply insert_key_from in Hx. destruct Hx as [->|Hx].
      * apply cell_ltb_total; auto; now rewrite cell_eqb_sym.
      * now apply Hh.
Qed.

(** The group labels come in increasing order. *)
Lemma group_keys_sorted (dropna : bool) (keys : list cell) :
  StronglySorted (fun a b => cell_ltb a b = true) (group_keys dropna keys).
Proof.
  unfold group_keys.
  assert (H : forall ks acc,
             StronglySorted (fun a b => cell_ltb a b = true) acc ->
             StronglySorted (fun a b => cell_ltb a b = true)
               (fold_left (fun a k => insert_key k a) ks acc)).
  { induction ks as [|k ks IH]; simpl; intros acc Hacc; auto.
    apply IH. now apply insert_key_sorted. }
  apply H. constructor.
Qed.

(** Keys in increasing order are pairwise different. *)
Lemma sorted_keys_distinct (l : list cell) :
  StronglySorted (fun a b => cell_ltb a b = true) l ->
  ForallOrdPairs (fun a b => cell_eqb a b = false) l.
Proof.
  induction 1 as [|h t Ht IH Hh]; constructor; auto.
  rewrite Forall_forall in Hh |- *. intros x Hx.
  destruct (cell_eqb h x) eqn:E; auto.
  apply cell_ltb_not_eq in E. rewrite (Hh x Hx) in E. discriminate.
Qed.

Lemma group_keys_distinct (dropna : bool) (keys : list cell) :
  ForallOrdPairs (fun a b => cell_eqb a b = false) (group_keys dropna keys).
Proof. apply sorted_keys_distinct, group_keys_sorted. Qed.

(** With [dropna] every key that is not missing has its group. *)
Lemma group_keys_dropna_has (keys : list cell) (k : cell) :
  In k keys -> isna k = false ->
  exists k0, In k0 (group_keys true keys) /\ cell_eqb k k0 = true.
Proof.
  intros Hin Hna. unfold group_keys. apply fold_insert_has.
  apply filter_In. split; auto. now rewrite Hna.
Qed.

(* ================================================================== *)
(** * What the aggregator computes *)
(* ================================================================== *)

Section AggregatorFacts.

Variable parse_number : pystr -> num.


Lemma coerce_column_rows (f : frame) (c : string) :
  coerce_column parse_number f c
  = {| columns := columns f;
       rows := map (fun r => coerce_cell parse_number (columns f) r c)
                   (rows f) |}.
Proof.
  unfold coerce_column, coerce_cell, has_column.
  destruct (mem c (columns f)) eqn:E.
  - unfold to_numeric_column, column. rewrite map_map.
    rewrite (set_column_map f c
               (fun r => Num (to_numeric parse_number (row_get r c)))).
    unfold has_column. now rewrite E.
  - rewrite map_id. now destruct f.
Qed.

Lemma coerce_loop_rows (cs : list string) (f : frame) :
  fold_left (coerce_column parse_number) cs f
  = {| columns := columns f;
       rows := map (fun r => fold_left (coerce_cell parse_number (columns f)) cs r)
                   (rows f) |}.
Proof.
  revert f. induction cs as [|c cs IH]; intros f; simpl.
  - rewrite map_id. now destruct f.
  - rewrite IH, coerce_column_rows. simpl. now rewrite map_map.
Qed.

Lemma coerce_numerics_rows (f : frame) :
  coerce_numerics parse_number f
  = {| columns := columns f;
       rows := map (coerce_row parse_number (columns f)) (rows f) |}.
Proof. apply coerce_loop_rows. Qed.

Lemma coerce_loop_get (cols cs : list string) (r : row) (c : string) :
  row_get (fold_left (coerce_cell parse_number cols) cs r) c
  = if mem c cs && mem c cols
    then Num (to_numeric parse_number (row_get r c))
    else row_get r c.
Proof.
  revert r. induction cs as [|c0 cs IH]; intros r; simpl; auto.
  rewrite IH. unfold coerce_cell.
  destruct (String.eqb c c0) eqn:E.
  - apply String.eqb_eq in E. subst c0. simpl.
    destruct (mem c cols) eqn:Ec; simpl.
    + rewrite row_get_set_same. simpl.
      now destruct (mem c cs).
    + now rewrite andb_false_r.
  - simpl. assert (Hne : c0 <> c).
    { intros ->. rewrite String.eqb_refl in E. discriminate. }
    destruct (mem c0 cols); auto.
    now rewrite row_get_set_other.
Qed.

Lemma coerce_row_get (cols : list string) (r : row) (c : string) :
  row_get (coerce_row parse_number cols r) c
  = if mem c NUMERIC_COLS && mem c cols
    then Num (to_numeric parse_number (row_get r c))
    else row_get r c.
Proof. apply coerce_loop_get. Qed.

Lemma has_column_coerce (f : frame) (c : string) :
  has_column (coerce_numerics parse_number f) c = has_column f c.
Proof. now rewrite coerce_numerics_rows. Qed.

(** The share loop works row by row. *)
Lemma add_share_rows (agg : frame) (oc : string * string) :
  add_share agg oc
  = {| columns := if has_column agg (fst oc) then columns agg
                  else columns agg ++ [fst oc];
       rows := map (fun r => share_row r oc) (rows agg) |}.
Proof.
  unfold add_share, share_values, column.
  rewrite combine_map_map, map_map.
  apply (set_column_map agg (fst oc)
           (fun r => Num (share_of (as_num (row_get r (snd oc)))
                                   (as_num (row_get r TOTAL_VOTES_COL))))).
Qed.

Lemma share_loop_rows (l : list (string * string)) (agg : frame) :
  rows (fold_left add_share l agg)
  = map (fun r => fold_left share_row l r) (rows agg).
Proof.
  revert agg. induction l as [|oc l IH]; intros agg; simpl.
  - now rewrite map_id.
  - rewrite IH, add_share_rows. simpl. now rewrite map_map.
Qed.

Lemma share_loop_columns (l : list (string * string)) (agg : frame) :
  columns (fold_left add_share l agg)
  = fold_left (fun cs oc => if mem (fst oc) cs then cs else cs ++ [fst oc])
              l (columns agg).
Proof.
  revert agg. induction l as [|oc l IH]; intros agg; simpl; auto.
Qed.

(* ---------------------------------------------------------------- *)
(** ** The caste loop leaves the other columns alone *)

Lemma set_rows_agree (c : string) (rs : list row) (vals : list cell) :
  List.length vals = List.length rs ->
  Forall2 agrees_on_plain rs
    (map (fun rv => row_set (fst rv) (weighted_name c) (snd rv))
         (combine rs vals)).
Proof.
  revert vals. induction rs as [|r rs IH]; intros [|v vals] H;
    simpl in *; try discriminate; constructor.
  - apply agrees_on_plain_set.
  - apply IH. congruence.
Qed.

Lemma set_column_aligned_agree (agg : frame) (c : string) (s : series) :
  Forall2 agrees_on_plain (rows agg)
          (rows (set_column_aligned agg (weighted_name c) s)).
Proof.
  unfold set_column_aligned, set_column. simpl.
  apply set_rows_agree.
  unfold range_index. now rewrite !length_map, length_seq.
Qed.

Lemma Forall2_agree_refl (rs : list row) : Forall2 agrees_on_plain rs rs.
Proof. induction rs; constructor; auto. apply agrees_on_plain_refl. Qed.

Lemma Forall2_agree_trans (a b c : list row) :
  Forall2 agrees_on_plain a b -> Forall2 agrees_on_plain b c ->
  Forall2 agrees_on_plain a c.
Proof.
  intros H. revert c. induction H; intros c0 H2; inversion H2; subst;
    constructor; eauto using agrees_on_plain_trans.
Qed.

(** One turn of the caste loop: it ends, and it touches nothing but the
    weighted column of its field. *)
Lemma add_weighted_step (work : frame) (key : string) (agg : frame)
    (c : string) :
  has_column work key = true ->
  has_column work TOTAL_VOTES_COL = true ->
  negb (has_column work c)
  || negb (String.eqb c key || String.eqb c TOTAL_VOTES_COL) = true ->
  exists agg',
    add_weighted parse_number work key agg c = Ok agg'
    /\ Forall2 agrees_on_plain (rows agg) (rows agg')
    /\ columns agg'
       = (if has_column work c
          then if has_column agg (weighted_name c) then columns agg
               else columns agg ++ [weighted_name c]
          else columns agg).
Proof.
  intros Hk Ht Hc. unfold add_weighted.
  destruct (has_column work c) eqn:Ec.
  - simpl in Hc. apply negb_true_iff in Hc. rewrite Hc.
    unfold select. simpl. rewrite Hk, Ec, Ht. simpl.
    eexists. split; [reflexivity|]. split.
    + apply set_column_aligned_agree.
    + reflexivity.
  - exists agg. repeat split; auto. apply Forall2_agree_refl.
Qed.

Lemma add_weighted_all_steps (work : frame) (key : string)
    (cs : list string) (agg : frame) :
  has_column work key = true ->
  has_column work TOTAL_VOTES_COL = true ->
  forallb (fun c => negb (has_column work c)
                    || negb (String.eqb c key
                             || String.eqb c TOTAL_VOTES_COL)) cs = true ->
  exists agg',
    add_weighted_all parse_number work key agg cs = Ok agg'
    /\ Forall2 agrees_on_plain (rows agg) (rows agg')
    /\ columns agg'
       = fold_left
           (fun cols c =>
              if has_column work c
              then if mem (weighted_name c) cols then cols
                   else cols ++ [weighted_name c]
              else cols)
           cs (columns agg).
Proof.
  intros Hk Ht. revert agg.
  induction cs as [|c cs IH]; intros agg Hcs; simpl.
  - exists agg. repeat split; auto. apply Forall2_agree_refl.
  - simpl in Hcs. apply andb_true_iff in Hcs. destruct Hcs as [Hc Hcs].
    destruct (add_weighted_step work key agg c Hk Ht Hc)
      as (agg1 & E1 & R1 & C1).
    rewrite E1. simpl.
    destruct (IH agg1 Hcs) as (agg2 & E2 & R2 & C2).
    exists agg2. split; [exact E2|]. split.
    + eapply Forall2_agree_trans; eauto.
    + rewrite C2, C1. reflexivity.
Qed.


(* ---------------------------------------------------------------- *)
(** ** The sums *)

Lemma find_none_of {A : Type} (p : A -> bool) (l : list A) :
  (forall x, In x l -> p x = false) -> find p l = None.
Proof.
  induction l as [|a l IH]; simpl; intros H; auto.
  rewrite (H a) by auto. apply IH. auto.
Qed.

Lemma SUM_COLS_numeric (c : string) :
  In c SUM_COLS -> mem c NUMERIC_COLS = true.
Proof.
  intros H. apply mem_true_iff. simpl in *. intuition.
Qed.

Lemma column_coerce_key (df : frame) (key : string) :
  mem key NUMERIC_COLS = false ->
  column (coerce_numerics parse_number df) key = column df key.
Proof.
  intros Hn. rewrite coerce_numerics_rows. unfold column. simpl.
  rewrite map_map. apply map_ext. intros r.
  now rewrite coerce_row_get, Hn.
Qed.

Lemma column_coerce_numeric (df : frame) (c : string) :
  mem c NUMERIC_COLS = true -> has_column df c = true ->
  map as_num (column (coerce_numerics parse_number df) c)
  = map (fun r => to_numeric parse_number (row_get r c)) (rows df).
Proof.
  intros Hn Hc. rewrite coerce_numerics_rows. unfold column. simpl.
  rewrite !map_map. apply map_ext. intros r.
  unfold has_column in Hc. now rewrite coerce_row_get, Hn, Hc.
Qed.

(** The frame of sums, its key column renamed: one record per group
    label, holding the sums over the rows of the group. *)
Lemma sums_frame (df : frame) (key : string) :
  has_column df key = true ->
  mem key NUMERIC_COLS = false ->
  forallb (has_column df) SUM_COLS = true ->
  exists sums,
    groupby_agg_sum (coerce_numerics parse_number df) key SUM_COLS = Ok sums
    /\ rename_column sums key "AC_key"
       = {| columns := "AC_key" :: SUM_COLS;
            rows := map (sums_row parse_number df key)
                        (group_keys false (column df key)) |}.
Proof.
  intros Hk Hn Hs.
  assert (Hne : forall c, In c SUM_COLS -> String.eqb c key = false).
  { intros c Hc. destruct (String.eqb c key) eqn:E; auto.
    apply String.eqb_eq in E. subst c.
    rewrite (SUM_COLS_numeric key Hc) in Hn. discriminate. }
  assert (Hhas : forall c, In c SUM_COLS -> has_column df c = true).
  { intros c Hc. rewrite forallb_forall in Hs. auto. }
  unfold groupby_agg_sum.
  rewrite has_column_coerce, Hk. simpl negb. cbv iota.
  rewrite find_none_of.
  2:{ intros c Hc. now rewrite has_column_coerce, Hhas, Hne. }
  eexists. split; [reflexivity|].
  unfold rename_column. cbn [columns rows]. f_equal.
  - cbn [map]. rewrite String.eqb_refl. f_equal.
    rewrite <- (map_id SUM_COLS) at 2. apply map_ext_in.
    intros c Hc. now rewrite Hne.
  - rewrite map_map, column_coerce_key by exact Hn.
    apply map_ext. intros k. cbn [map fst snd].
    rewrite String.eqb_refl. unfold sums_row. f_equal.
    rewrite map_map. apply map_ext_in. intros c Hc. cbn [fst snd].
    rewrite Hne by exact Hc. do 2 f_equal.
    unfold group_sum, group_total, group_column.
    rewrite column_coerce_numeric
      by (auto using SUM_COLS_numeric).
    unfold column. now rewrite group_values_map.
Qed.

(** [ac_aggregate] runs to its end on an aggregable input.  Its result
    has one record per group label, in the order of the labels; outside
    the weighted columns each record is [base_row] of its label. *)
Lemma ac_aggregate_rows (df : frame) (key : string)
    (caste_cols : list string) :
  aggregable df key caste_cols = true ->
  exists agg,
    ac_aggregate parse_number df key caste_cols = Ok agg
    /\ Forall2 agrees_on_plain
         (map (base_row parse_number df key)
              (group_keys false (column df key)))
         (rows agg)
    /\ columns agg
       = fold_left
           (fun cols c =>
              if has_column df c
              then if mem (weighted_name c) cols then cols
                   else cols ++ [weighted_name c]
              else cols)
           caste_cols
           ("AC_key" :: SUM_COLS ++ map fst share_map).
Proof.
  unfold aggregable. rewrite !andb_true_iff.
  intros [[[Hk Hn] Hs] Hc]. apply negb_true_iff in Hn.
  destruct (sums_frame df key Hk Hn Hs) as (sums & E & R).
  unfold ac_aggregate. rewrite E. cbn [res_bind]. rewrite R.
  set (agg0 := fold_left add_share share_map _).
  destruct (add_weighted_all_steps
              (coerce_numerics parse_number df) key caste_cols agg0)
    as (agg & Ea & Ra & Ca).
  - now rewrite has_column_coerce.
  - rewrite has_column_coerce. rewrite forallb_forall in Hs.
    apply Hs. simpl. auto.
  - rewrite forallb_forall in Hc |- *. intros c Hin.
    rewrite has_column_coerce. now apply Hc.
  - exists agg. split; [exact Ea|]. split.
    + unfold agg0 in Ra. rewrite share_loop_rows in Ra.
      cbn [rows] in Ra. rewrite map_map in Ra. exact Ra.
    + rewrite Ca. unfold agg0. rewrite share_loop_columns.
      cbn [columns]. 
      assert (forall l a, 
        fold_left (fun cols c =>
           if has_column (coerce_numerics parse_number df) c
           then if mem (weighted_name c) cols then cols else cols ++ [weighted_name c]
           else cols) l a
        = fold_left (fun cols c =>
           if has_column df c
           then if mem (weighted_name c) cols then cols else cols ++ [weighted_name c]
           else cols) l a) as X.
      { induction l as [|c l IH]; simpl; intros a; auto.
        now rewrite IH, has_column_coerce. }
      rewrite X. reflexivity.
Qed.

End AggregatorFacts.

(* ================================================================== *)
(** * The records of the aggregator *)
(* ================================================================== *)

Lemma Forall2_map_in_r {A B : Type} (R : B -> B -> Prop) (f : A -> B)
    (l : list A) (rs : list B) (r : B) :
  Forall2 R (map f l) rs -> In r rs -> exists a, In a l /\ R (f a) r.
Proof.
  revert rs. induction l as [|a l IH]; intros rs H Hin; simpl in H;
    inversion H; subst; simpl in Hin; [tauto|].
  destruct Hin as [->|Hin].
  - exists a. simpl. auto.
  - destruct (IH _ H4 Hin) as (a' & Ha & Hr). exists a'. simpl. auto.
Qed.


Lemma plain_AC_key : plain_name "AC_key".
Proof. apply plain_of_last_char. discriminate. Qed.

Lemma plain_SUM_COLS (c : string) : In c SUM_COLS -> plain_name c.
Proof.
  intros H. apply plain_of_last_char. simpl in H.
  repeat (destruct H as [<-|H]; [discriminate|]). contradiction.
Qed.

Lemma plain_share_out (oc : string * string) :
  In oc share_map -> plain_name (fst oc).
Proof.
  intros H. apply plain_of_last_char. simpl in H.
  repeat (destruct H as [<-|H]; [discriminate|]). contradiction.
Qed.

Section Records.

Variable parse_number : pystr -> num.

Lemma base_row_key (df : frame) (key : string) (k : cell) :
  row_get (base_row parse_number df key k) "AC_key" = k.
Proof. reflexivity. Qed.

Lemma base_row_sum (df : frame) (key : string) (k : cell) (c : string) :
  In c SUM_COLS ->
  row_get (base_row parse_number df key k) c
  = Num (group_total parse_number df key k c).
Proof.
  intros H. simpl in H.
  repeat (destruct H as [<-|H]; [reflexivity|]). contradiction.
Qed.

Lemma base_row_share (df : frame) (key : string) (k : cell)
    (oc : string * string) :
  In oc share_map ->
  row_get (base_row parse_number df key k) (fst oc)
  = Num (share_of (group_total parse_number df key k (snd oc))
                  (group_total parse_number df key k TOTAL_VOTES_COL)).
Proof.
  intros H. simpl in H.
  repeat (destruct H as [<-|H]; [reflexivity|]). contradiction.
Qed.


(** Every record of the result is the record of a group label. *)
Lemma ac_aggregate_record (df : frame) (key : string)
    (caste_cols : list string) (agg : frame) (r : row) :
  aggregable df key caste_cols = true ->
  ac_aggregate parse_number df key caste_cols = Ok agg ->
  In r (rows agg) ->
  exists k,
    In k (column df key)
    /\ agrees_on_plain (base_row parse_number df key k) r.
Proof.
  intros Ha E Hin.
  destruct (ac_aggregate_rows parse_number df key caste_cols Ha)
    as (agg' & E' & R & _).
  rewrite E in E'. inversion E'; subst agg'.
  destruct (Forall2_map_in_r _ _ _ _ _ R Hin) as (k & Hk & Hr).
  exists k. split; auto. eapply group_keys_from; eauto.
Qed.


End Records.

(* ================================================================== *)
(** * Sums and shares *)
(* ================================================================== *)


Lemma aggregable_with_rows (df : frame) (rs : list row) (key : string)
    (caste_cols : list string) :
  aggregable (with_rows df rs) key caste_cols = aggregable df key caste_cols.
Proof. reflexivity. Qed.




(* ------------------------------------------------------------------ *)
(** ** Shares *)




Lemma share_map_counts (oc : string * string) :
  In oc share_map -> In (snd oc) SUM_COLS.
Proof.
  intros H. simpl in H.
  repeat (destruct H as [<-|H]; [simpl; tauto|]). contradiction.
Qed.




(** C2.  At a group whose summed total is zero while a summed count is
    not, the code does not give the share 0 that the claim requires: the
    quotient is an infinity, which [fillna(0)] leaves in place.  A count of
    zero over a total of zero does give 0. *)
Theorem share_of_zero_total_is_infinite :
  cell_at (ac_aggregate parse_digits village_without_total DUMMY_AC_FIELD [])
          0 TOTAL_VOTES_COL = Some (int_cell 0)
  /\ cell_at (ac_aggregate parse_digits village_without_total
                DUMMY_AC_FIELD [])
             0 "TDP_share" = Some (Num PInf)
  /\ cell_at (ac_aggregate parse_digits village_without_total
                DUMMY_AC_FIELD [])
             0 "YSRCP_share" = Some (int_cell 0).
Proof. repeat split; vm_compute; reflexivity. Qed.

(** C1.  The weighted value of the claim's own example, two villages with
    totals 100 and 300 and field values 20 and 60, is missing when the
    constituency is named by a string: the series of weighted values is
    labelled by the group keys and is assigned to a frame whose index is
    0, 1, ..., so no label matches.  It is 50 only when the key of the
    group is the number of its row.  And with the field missing in the
    second village the denominator still counts that village: the value
    is 20 * 100 / 400 = 5, not 20. *)
Theorem weighted_value_misaligned :
  cell_at (ac_aggregate parse_digits (two_villages (Str (py "X")))
             DUMMY_AC_FIELD ["SC_pct"])
          0 "SC_pct_weighted" = Some NA
  /\ cell_at (ac_aggregate parse_digits (two_villages (int_cell 0))
                DUMMY_AC_FIELD ["SC_pct"])
             0 "SC_pct_weighted" = Some (int_cell 50)
  /\ cell_at (ac_aggregate parse_digits (two_villages_one_field (int_cell 0))
                DUMMY_AC_FIELD ["SC_pct"])
             0 "SC_pct_weighted" = Some (int_cell 5).
Proof. repeat split; vm_compute; reflexivity. Qed.

(* ================================================================== *)
(** * The key normaliser *)
(* ================================================================== *)

Lemma isspace_SPACE : isspace SPACE = true.
Proof. reflexivity. Qed.

Lemma sub_ws_replace (b : bool) (s : pystr) :
  sub_ws_from b (replace_nbsp s) = sub_ws_from b s.
Proof.
  revert b. induction s as [|c s IH]; intros b; simpl; auto.
  destruct (N.eqb_spec c NBSP) as [->|Hne].
  - change (isspace SPACE) with true. change (isspace NBSP) with true.
    cbv iota. now rewrite IH.
  - now rewrite !IH.
Qed.

Lemma rstrip_cons_nonspace (c : N) (s : pystr) :
  isspace c = false -> rstrip (c :: s) = c :: rstrip s.
Proof. intros H. simpl. rewrite H. now destruct (rstrip s). Qed.

Lemma rstrip_cons_space (c : N) (s : pystr) :
  isspace c = true ->
  rstrip (c :: s) = match rstrip s with [] => [] | r => c :: r end.
Proof. intros H. simpl. rewrite H. reflexivity. Qed.

Lemma words_cons_space (c : N) (s : pystr) :
  isspace c = true -> words (c :: s) = words s.
Proof. intros H. simpl. now rewrite H. Qed.

Lemma words_cons_nonspace_nonempty (c : N) (s : pystr) :
  isspace c = false -> words (c :: s) <> [].
Proof.
  intros H. simpl. rewrite H. destruct s as [|c' s']; [discriminate|].
  destruct (isspace c'); [discriminate|].
  destruct (words (c' :: s')); discriminate.
Qed.

Lemma rstrip_nil_iff (s : pystr) : rstrip s = [] <-> words s = [].
Proof.
  induction s as [|c s IH]; [simpl; tauto|].
  destruct (isspace c) eqn:E.
  - rewrite rstrip_cons_space, words_cons_space by exact E.
    rewrite <- IH. destruct (rstrip s); split; auto; discriminate.
  - rewrite rstrip_cons_nonspace by exact E. split; [discriminate|].
    intros H. now apply words_cons_nonspace_nonempty in H.
Qed.

Lemma join_space_cons (w : pystr) (ws : list pystr) :
  join_space (w :: ws)
  = w ++ match ws with [] => [] | _ => SPACE :: join_space ws end.
Proof. destruct ws; simpl; auto. now rewrite app_nil_r. Qed.

(** What the substitution yields on a right-stripped text, in terms of its
    words: inside a run, and at the start of a match. *)
Lemma sub_ws_rstrip (s : pystr) :
  sub_ws_from true (rstrip s) = join_space (words s)
  /\ sub_ws_from false (rstrip s)
     = match s with
       | [] => []
       | c :: _ =>
           if isspace c
           then match words s with
                | [] => []
                | ws => SPACE :: join_space ws
                end
           else join_space (words s)
       end.
Proof.
  induction s as [|c s [IHt IHf]]; [simpl; auto|].
  destruct (isspace c) eqn:E.
  - rewrite words_cons_space by exact E.
    destruct (words s) as [|w ws] eqn:Ew.
    + rewrite rstrip_cons_space by exact E.
      apply rstrip_nil_iff in Ew. rewrite Ew. simpl. auto.
    + assert (Hr : rstrip (c :: s) = c :: rstrip s).
      { rewrite rstrip_cons_space by exact E.
        destruct (rstrip s) eqn:Er; auto.
        apply rstrip_nil_iff in Er. congruence. }
      rewrite Hr. cbn [sub_ws_from]. rewrite E, IHt. auto.
  - rewrite rstrip_cons_nonspace by exact E.
    cbn [sub_ws_from]. rewrite E.
    assert (Hgoal : c :: sub_ws_from false (rstrip s)
                    = join_space (words (c :: s))).
    { rewrite IHf. cbn [words]. rewrite E.
      destruct s as [|c' s']; [reflexivity|]. cbv beta iota.
      destruct (isspace c') eqn:E'.
      - rewrite join_space_cons. destruct (words (c' :: s')); reflexivity.
      - pose proof (words_cons_nonspace_nonempty c' s' E') as Hne.
        destruct (words (c' :: s')) as [|w ws]; [contradiction|].
        rewrite !join_space_cons. reflexivity. }
    split; exact Hgoal.
Qed.

Lemma lstrip_head (s : pystr) :
  match lstrip s with [] => True | c :: _ => isspace c = false end.
Proof.
  induction s as [|c s IH]; simpl; auto.
  destruct (isspace c) eqn:E; auto.
Qed.

Lemma words_lstrip (s : pystr) : words (lstrip s) = words s.
Proof.
  induction s as [|c s IH]; auto.
  destruct (isspace c) eqn:E.
  - rewrite words_cons_space by exact E. cbn [lstrip]. rewrite E. exact IH.
  - cbn [lstrip]. now rewrite E.
Qed.

(** The three text steps of the normaliser leave the words, one space
    apart. *)
Lemma tidy_words (s : pystr) :
  re_sub_ws (replace_nbsp (strip s)) = join_space (words s).
Proof.
  unfold re_sub_ws, strip. rewrite sub_ws_replace.
  destruct (sub_ws_rstrip (lstrip s)) as [_ Hf]. rewrite Hf.
  pose proof (lstrip_head s) as Hh. rewrite <- (words_lstrip s).
  destruct (lstrip s) as [|c r]; [reflexivity|]. now rewrite Hh.
Qed.

Lemma words_good (s : pystr) : Forall good_word (words s).
Proof.
  induction s as [|c s IH]; [constructor|].
  cbn [words]. destruct (isspace c) eqn:E; [exact IH|].
  assert (Hc : good_word [c]).
  { split; [discriminate|]. now constructor. }
  destruct s as [|c' s']; [now constructor|].
  destruct (isspace c') eqn:E'; [now constructor|].
  destruct (words (c' :: s')) as [|w ws]; [now constructor|].
  inversion IH as [|? ? [Hw1 Hw2] Hws]; subst.
  constructor; auto. split; [discriminate|]. now constructor.
Qed.

Lemma words_cons_cons (c c' : N) (s : pystr) :
  isspace c = false -> isspace c' = false ->
  words (c :: c' :: s)
  = match words (c' :: s) with
    | w :: ws => (c :: w) :: ws
    | [] => [[c]]
    end.
Proof.
  intros Hc Hc'. change (words (c :: c' :: s))
    with (if isspace c then words (c' :: s)
          else if isspace c' then [c] :: words (c' :: s)
               else match words (c' :: s) with
                    | w :: ws => (c :: w) :: ws
                    | [] => [[c]]
                    end).
  now rewrite Hc, Hc'.
Qed.

Lemma words_of_word (w r : pystr) :
  good_word w ->
  words (w ++ SPACE :: r) = w :: words r /\ words w = [w].
Proof.
  intros [Hne Hall]. induction w as [|c w IH]; [congruence|].
  inversion Hall as [|? ? Hc Hw]; subst.
  destruct w as [|c' w'].
  - simpl. rewrite Hc. change (isspace SPACE) with true. cbv iota.
    split; auto.
  - destruct IH as [IH1 IH2]; [discriminate|exact Hw|].
    inversion Hw as [|? ? Hc' _]; subst.
    split.
    + change ((c :: c' :: w') ++ SPACE :: r)
        with (c :: c' :: (w' ++ SPACE :: r)).
      rewrite words_cons_cons by assumption.
      change (c' :: w' ++ SPACE :: r) with ((c' :: w') ++ SPACE :: r).
      now rewrite IH1.
    + rewrite words_cons_cons by assumption. now rewrite IH2.
Qed.

(** The words of a text made of words one space apart are those words. *)
Lemma words_join (ws : list pystr) :
  Forall good_word ws -> words (join_space ws) = ws.
Proof.
  induction 1 as [|w ws Hw Hws IH]; [reflexivity|].
  destruct ws as [|w' ws'].
  - simpl. now apply (words_of_word w []).
  - change (join_space (w :: w' :: ws'))
      with (w ++ SPACE :: join_space (w' :: ws')).
    destruct (words_of_word w (join_space (w' :: ws')) Hw) as [E _].
    now rewrite E, IH.
Qed.

Section NormalizerFacts.

Variable upper_char : N -> pystr.
Variable str_of_num : num -> pystr.

(** What the development uses of Unicode's upper-case table: the space
    has no case; the upper-case form of a character that is not
    whitespace is not empty and holds no whitespace; an upper-case form
    is its own upper-case form. *)
Hypothesis upper_space : upper_char SPACE = [SPACE].
Hypothesis upper_nonspace :
  forall c, isspace c = false -> good_word (upper_char c).
Hypothesis upper_idem :
  forall c, upper upper_char (upper_char c) = upper_char c.

Lemma upper_app (a b : pystr) :
  upper upper_char (a ++ b) = upper upper_char a ++ upper upper_char b.
Proof. apply flat_map_app. Qed.

Lemma upper_upper (s : pystr) :
  upper upper_char (upper upper_char s) = upper upper_char s.
Proof.
  induction s as [|c s IH]; [reflexivity|].
  change (upper upper_char (c :: s))
    with (upper_char c ++ upper upper_char s).
  now rewrite upper_app, upper_idem, IH.
Qed.

Lemma upper_join (ws : list pystr) :
  upper upper_char (join_space ws)
  = join_space (map (upper upper_char) ws).
Proof.
  induction ws as [|w ws IH]; [reflexivity|].
  destruct ws as [|w' ws']; [reflexivity|].
  change (join_space (w :: w' :: ws'))
    with (w ++ SPACE :: join_space (w' :: ws')).
  rewrite upper_app.
  change (upper upper_char (SPACE :: join_space (w' :: ws')))
    with (upper_char SPACE ++ upper upper_char (join_space (w' :: ws'))).
  rewrite upper_space, IH. reflexivity.
Qed.

Lemma upper_good (w : pystr) :
  good_word w -> good_word (upper upper_char w).
Proof.
  intros [Hne Hall]. destruct w as [|c w]; [congruence|].
  inversion Hall as [|? ? Hc Hw]; subst.
  destruct (upper_nonspace c Hc) as [Hc1 Hc2].
  split.
  - simpl. destruct (upper_char c); [congruence|discriminate].
  - change (upper upper_char (c :: w))
      with (upper_char c ++ upper upper_char w).
    apply Forall_app. split; auto.
    clear Hne Hall Hc Hc1 Hc2. induction Hw as [|d w Hd Hw IH].
    + constructor.
    + change (upper upper_char (d :: w))
        with (upper_char d ++ upper upper_char w).
      apply Forall_app. split; auto. now apply upper_nonspace.
Qed.

Lemma upper_words_good (s : pystr) :
  Forall good_word (map (upper upper_char) (words s)).
Proof.
  pose proof (words_good s) as H. induction H; constructor; auto.
  now apply upper_good.
Qed.

(** The normaliser yields the normal form of the specification. *)
Lemma normalize_key_text (c : cell) :
  isna c = false ->
  _normalize_key upper_char str_of_num c
  = Str (spec_normal_form upper_char (py_str str_of_num c)).
Proof.
  intros H. unfold _normalize_key, spec_normal_form. rewrite H.
  now rewrite tidy_words, upper_join.
Qed.

Lemma spec_normal_form_idem (s : pystr) :
  spec_normal_form upper_char (spec_normal_form upper_char s)
  = spec_normal_form upper_char s.
Proof.
  unfold spec_normal_form.
  rewrite words_join by apply upper_words_good.
  rewrite map_map. f_equal. apply map_ext. intros w. apply upper_upper.
Qed.

(** C5.  The key normaliser is idempotent.  A missing input gives the
    null marker; any other input gives the words of its text (its
    maximal runs of non-whitespace, so that leading and trailing
    whitespace is gone and every run of whitespace, non-breaking spaces
    included, counts once), each in upper case, with one ordinary space
    between them.  Each of these words is non-empty and free of
    whitespace.  Hence two texts with the same upper-cased words, which
    is what whitespace and case variants of one key are, normalise to
    the same output. *)
Theorem normalize_key_idempotent :
  (forall c, isna c = true -> _normalize_key upper_char str_of_num c = NA)
  /\ (forall c, isna c = false ->
        _normalize_key upper_char str_of_num c
        = Str (spec_normal_form upper_char (py_str str_of_num c)))
  /\ (forall c,
        _normalize_key upper_char str_of_num
          (_normalize_key upper_char str_of_num c)
        = _normalize_key upper_char str_of_num c)
  /\ (forall s, Forall good_word (map (upper upper_char) (words s)))
  /\ (forall s1 s2,
        map (upper upper_char) (words s1)
        = map (upper upper_char) (words s2) ->
        _normalize_key upper_char str_of_num (Str s1)
        = _normalize_key upper_char str_of_num (Str s2)).
Proof.
  split; [|split; [|split; [|split]]].
  - intros c H. unfold _normalize_key. now rewrite H.
  - apply normalize_key_text.
  - intros c. destruct (isna c) eqn:E.
    + assert (En : _normalize_key upper_char str_of_num c = NA).
      { unfold _normalize_key. now rewrite E. }
      rewrite En. reflexivity.
    + rewrite (normalize_key_text c E).
      rewrite normalize_key_text by reflexivity.
      cbn [py_str]. now rewrite spec_normal_form_idem.
  - apply upper_words_good.
  - intros s1 s2 H. rewrite !normalize_key_text by reflexivity.
    cbn [py_str]. unfold spec_normal_form. now rewrite H.
Qed.

End NormalizerFacts.

(* ------------------------------------------------------------------ *)
(** ** The ASCII instance *)

Ltac split_N_tests :=
  repeat match goal with
         | |- context [(?a <=? ?b)%N] => destruct (N.leb_spec a b); try lia
         | |- context [(?a =? ?b)%N] => destruct (N.eqb_spec a b); try lia
         end.

Lemma isspace_false_capital (d : N) :
  (65 <= d)%N -> (d <= 90)%N -> isspace d = false.
Proof. intros H1 H2. unfold isspace. split_N_tests; reflexivity. Qed.

Lemma ascii_upper_cases (c : N) :
  ((97 <= c)%N /\ (c <= 122)%N /\ ascii_upper_char c = [(c - 32)%N])
  \/ (((c < 97)%N \/ (122 < c)%N) /\ ascii_upper_char c = [c]).
Proof.
  unfold ascii_upper_char.
  destruct (N.leb_spec 97 c); destruct (N.leb_spec c 122); simpl; auto.
Qed.

Lemma ascii_upper_space : ascii_upper_char SPACE = [SPACE].
Proof. reflexivity. Qed.

Lemma ascii_upper_nonspace (c : N) :
  isspace c = false -> good_word (ascii_upper_char c).
Proof.
  intros H. destruct (ascii_upper_cases c) as [(H1 & H2 & ->)|(_ & ->)].
  - split; [discriminate|]. constructor; [|constructor].
    apply isspace_false_capital; lia.
  - split; [discriminate|]. constructor; [exact H|constructor].
Qed.

Lemma ascii_upper_idem (c : N) :
  upper ascii_upper_char (ascii_upper_char c) = ascii_upper_char c.
Proof.
  destruct (ascii_upper_cases c) as [(H1 & H2 & E)|(H & E)]; rewrite E.
  - unfold upper. simpl. rewrite app_nil_r.
    destruct (ascii_upper_cases (c - 32)) as [(H3 & _)|(_ & E')]; [lia|].
    exact E'.
  - unfold upper. simpl. now rewrite app_nil_r.
Qed.

Lemma normalize_key_idempotent_witness :
  (forall c, isna c = true ->
     _normalize_key ascii_upper_char decimal_str_of_num c = NA)
  /\ (forall c, isna c = false ->
        _normalize_key ascii_upper_char decimal_str_of_num c
        = Str (spec_normal_form ascii_upper_char
                 (py_str decimal_str_of_num c)))
  /\ (forall c,
        _normalize_key ascii_upper_char decimal_str_of_num
          (_normalize_key ascii_upper_char decimal_str_of_num c)
        = _normalize_key ascii_upper_char decimal_str_of_num c)
  /\ (forall s, Forall good_word (map (upper ascii_upper_char) (words s)))
  /\ (forall s1 s2,
        map (upper ascii_upper_char) (words s1)
        = map (upper ascii_upper_char) (words s2) ->
        _normalize_key ascii_upper_char decimal_str_of_num (Str s1)
        = _normalize_key ascii_upper_char decimal_str_of_num (Str s2)).
Proof.
  apply (normalize_key_idempotent ascii_upper_char decimal_str_of_num
           ascii_upper_space ascii_upper_nonspace ascii_upper_idem).
Defined.

(** Variants of one key: blanks of several kinds around and inside, and
    mixed case. *)
Example normalize_key_variants :
  _normalize_key ascii_upper_char decimal_str_of_num
    (Str ([9; 32] ++ py "a1" ++ [160; 160; 32] ++ py "Left" ++ [10]))%N
  = Str (py "A1 LEFT")
  /\ _normalize_key ascii_upper_char decimal_str_of_num (Str (py "a1 left"))
     = Str (py "A1 LEFT")
  /\ _normalize_key ascii_upper_char decimal_str_of_num (int_cell 12)
     = Str (py "12")
  /\ _normalize_key ascii_upper_char decimal_str_of_num NA = NA.
Proof. repeat split; vm_compute; reflexivity. Qed.

(* ================================================================== *)
(** * The village merge *)
(* ================================================================== *)

Section MergeFacts.

Variable geometry : Type.





End MergeFacts.


(** On that input: two features come out, the second with its table
    columns missing. *)
Example village_merge_example :
  feature_count (merged two_shapes sheet_of_one) = Some 2%nat
  /\ feature_keys DUMMY_AC_FIELD (merged two_shapes sheet_of_one)
     = Some [([1%nat], Str (py "X")); ([2%nat], NA)].
Proof. split; vm_compute; reflexivity. Qed.


(* ================================================================== *)
(** * The geometry loader *)
(* ================================================================== *)

Lemma map_fst_combine {A B : Type} (a : list A) (b : list B) :
  List.length a = List.length b -> map fst (combine a b) = a.
Proof.
  revert b. induction a as [|x a IH]; intros [|y b] H; simpl in *;
    try discriminate; auto.
  f_equal. apply IH. congruence.
Qed.

Lemma set_column_rows_length (f : frame) (c : string) (vals : list cell) :
  List.length vals = List.length (rows f) ->
  List.length (rows (set_column f c vals)) = List.length (rows f).
Proof.
  intros H. unfold set_column. cbn [rows].
  rewrite length_map, length_combine. lia.
Qed.

Section LoaderFacts.

Variable geometry : Type.
Variable upper_char : N -> pystr.
Variable str_of_num : num -> pystr.
Variable to_epsg : string -> res (option Z).
Variable to_crs : geo_frame geometry -> Z -> res (geo_frame geometry).

(** Normalising the key column keeps the number of rows. *)
Lemma normalize_key_column_rows (f t : frame) (c : string) :
  normalize_key_column upper_char str_of_num f c = Ok t ->
  List.length (rows t) = List.length (rows f).
Proof.
  unfold normalize_key_column. destruct (has_column f c); [|discriminate].
  intros E. inversion E; subst. apply set_column_rows_length.
  unfold column. now rewrite !length_map.
Qed.

(** C8.  Let [gdf] be the collection as it stands after the key column
    was normalised.  If the reprojection raises, for whatever reason, or
    if reading the EPSG code of the CRS raises, the loader does not
    raise: it returns [gdf] itself.  It returns [gdf] as well when the
    CRS is EPSG:4326.  And [gdf] has the geometries and the CRS of the
    file that was read. *)
Theorem load_shapefile_survives_reprojection :
  forall (file : geo_frame geometry) (key_field : string) (t : frame),
    normalize_key_column upper_char str_of_num (table file) key_field
    = Ok t ->
    (forall e,
        to_crs (with_table file t) 4326 = Raise e ->
        load_shapefile upper_char str_of_num to_epsg to_crs file key_field
        = Ok (with_table file t))
    /\ (forall c e,
           gcrs file = Some c -> to_epsg c = Raise e ->
           load_shapefile upper_char str_of_num to_epsg to_crs file
                          key_field
           = Ok (with_table file t))
    /\ (forall c,
           gcrs file = Some c -> to_epsg c = Ok (Some 4326%Z) ->
           load_shapefile upper_char str_of_num to_epsg to_crs file
                          key_field
           = Ok (with_table file t))
    /\ map fst (features (with_table file t)) = map fst (features file)
    /\ gcrs (with_table file t) = gcrs file.
Proof.
  intros file key t Hn.
  assert (Hload : forall r,
             ensure_wgs84 to_epsg to_crs (with_table file t) = r ->
             (match r with Ok g => g = with_table file t | Raise _ => True
              end) ->
             load_shapefile upper_char str_of_num to_epsg to_crs file key
             = Ok (with_table file t)).
  { intros r Er Hr. unfold load_shapefile. rewrite Hn. cbn [res_bind].
    rewrite Er. destruct r; [now subst|reflexivity]. }
  split; [|split; [|split; [|split]]].
  - intros e He. eapply Hload; [reflexivity|].
    unfold ensure_wgs84. cbn [gcrs with_table].
    destruct (gcrs file) as [c|]; [|now rewrite He].
    destruct (to_epsg c) as [z|e']; cbn [res_bind]; auto.
    destruct (differs_from_4326 z); [now rewrite He|reflexivity].
  - intros c e Hc He. eapply Hload; [reflexivity|].
    unfold ensure_wgs84. cbn [gcrs with_table]. now rewrite Hc, He.
  - intros c Hc He. eapply Hload; [reflexivity|].
    unfold ensure_wgs84. cbn [gcrs with_table]. now rewrite Hc, He.
  - cbn [with_table features]. apply map_fst_combine.
    rewrite length_map. rewrite (normalize_key_column_rows _ _ _ Hn).
    unfold table. cbn [rows]. now rewrite length_map.
  - reflexivity.
Qed.

End LoaderFacts.

Lemma load_shapefile_survives_reprojection_witness :
  exists t,
    normalize_key_column ascii_upper_char decimal_str_of_num
      (table two_shapes) SHP_REGION_FIELD = Ok t
    /\ (forall e,
           failing_to_crs (with_table two_shapes t) 4326 = Raise e ->
           load_shapefile ascii_upper_char decimal_str_of_num
             unidentified_epsg failing_to_crs two_shapes SHP_REGION_FIELD
           = Ok (with_table two_shapes t))
    /\ (forall c e,
           gcrs two_shapes = Some c -> unidentified_epsg c = Raise e ->
           load_shapefile ascii_upper_char decimal_str_of_num
             unidentified_epsg failing_to_crs two_shapes SHP_REGION_FIELD
           = Ok (with_table two_shapes t))
    /\ (forall c,
           gcrs two_shapes = Some c ->
           unidentified_epsg c = Ok (Some 4326%Z) ->
           load_shapefile ascii_upper_char decimal_str_of_num
             unidentified_epsg failing_to_crs two_shapes SHP_REGION_FIELD
           = Ok (with_table two_shapes t))
    /\ map fst (features (with_table two_shapes t))
       = map fst (features two_shapes)
    /\ gcrs (with_table two_shapes t) = gcrs two_shapes.
Proof.
  eexists. split; [reflexivity|].
  apply (load_shapefile_survives_reprojection parcels ascii_upper_char
           decimal_str_of_num unidentified_epsg failing_to_crs two_shapes
           SHP_REGION_FIELD).
  reflexivity.
Defined.

(** With a reprojection that fails the loader returns the two villages,
    their geometries as read. *)
Example load_shapefile_example :
  feature_keys SHP_REGION_FIELD
    (load_shapefile ascii_upper_char decimal_str_of_num unidentified_epsg
       failing_to_crs two_shapes SHP_REGION_FIELD)
  = Some [([1%nat], Str (py "V1")); ([2%nat], Str (py "V2"))].
Proof. vm_compute. reflexivity. Qed.

(* ================================================================== *)
(** * The dissolve *)
(* ================================================================== *)

(** C4.  On a merged collection with two villages of constituency [X] and
    one village whose grouping key is missing, the dissolve yields the one
    record of [X], the union of its two villages, and no record for the
    missing key, which the claim requires: geopandas groups with
    [dropna=True].  The aggregator, which groups with [dropna=False], does
    compute a record for the missing key; the left join onto the dissolved
    records discards it. *)
Theorem dissolve_drops_missing_key :
  feature_keys DUMMY_AC_FIELD
    (dissolve parcels_union merged_with_unmatched DUMMY_AC_FIELD)
  = Some [([1%nat; 2%nat], Str (py "X"))]
  /\ row_count (ac_aggregate parse_digits (table merged_with_unmatched)
                  DUMMY_AC_FIELD [])
     = Some 2%nat
  /\ cell_at (ac_aggregate parse_digits (table merged_with_unmatched)
                DUMMY_AC_FIELD [])
             1 "AC_key" = Some NA
  /\ feature_keys DUMMY_AC_FIELD
       (ac_layer parcels_union parse_digits merged_with_unmatched true [])
     = Some [([1%nat; 2%nat], Str (py "X"))]
  /\ feature_keys TOTAL_VOTES_COL
       (ac_layer parcels_union parse_digits merged_with_unmatched true [])
     = Some [([1%nat; 2%nat], int_cell 400)].
Proof. repeat split; vm_compute; reflexivity. Qed.

(* ================================================================== *)
(** * The demographic columns *)
(* ================================================================== *)

Lemma NoDup_DEFAULT_CASTE_COLS : NoDup DEFAULT_CASTE_COLS.
Proof.
  unfold DEFAULT_CASTE_COLS.
  repeat (constructor; [simpl; intuition discriminate|]). constructor.
Qed.

Lemma NoDup_filter_string (p : string -> bool) (l : list string) :
  NoDup l -> NoDup (filter p l).
Proof.
  induction 1 as [|x l Hx Hl IH]; simpl; [constructor|].
  destruct (p x); auto. constructor; auto.
  intros H. apply filter_In in H. tauto.
Qed.

(** The caste loop adds, in order, the weighted column of each field that
    the work frame has. *)
Lemma weighted_columns_fold (has : string -> bool) (cs acc : list string) :
  NoDup cs ->
  (forall c, In c cs -> ~ In (weighted_name c) acc) ->
  fold_left
    (fun cols c =>
       if has c
       then if mem (weighted_name c) cols then cols
            else cols ++ [weighted_name c]
       else cols)
    cs acc
  = acc ++ map weighted_name (filter has cs).
Proof.
  intros Hnd. revert acc. induction Hnd as [|c cs Hc Hcs IH]; intros acc H.
  - simpl. now rewrite app_nil_r.
  - simpl. destruct (has c) eqn:E.
    + assert (Hm : mem (weighted_name c) acc = false).
      { apply mem_false_iff. apply H. now left. }
      rewrite Hm, IH.
      * simpl. now rewrite <- app_assoc.
      * intros c' Hc' Hin. apply in_app_or in Hin.
        destruct Hin as [Hin|[Heq|[]]].
        -- apply (H c'); [now right|exact Hin].
        -- apply weighted_name_inj in Heq. subst c'. contradiction.
    + apply IH. intros c' Hc'. apply H. now right.
Qed.

Lemma BASE_COLUMNS_plain (c : string) : In c BASE_COLUMNS -> plain_name c.
Proof.
  intros H. apply plain_of_last_char. simpl in H.
  repeat (destruct H as [<-|H]; [discriminate|]). contradiction.
Qed.

Lemma CASTE_COLS_iff (df : frame) (c : string) :
  In c (CASTE_COLS df) <-> In c DEFAULT_CASTE_COLS /\ has_column df c = true.
Proof. unfold CASTE_COLS. apply filter_In. Qed.

(** C10, as amended.  The demographic fields considered are those of the
    fixed list that the sheet has.  The village layer shows, beside its
    fixed fields, exactly these.  Of these the aggregator weights the
    fields that the merged collection [work] has under the same name (the
    merge renames a column that the shapefile and the sheet both carry),
    one weighted column each, in the order of the list, after the columns
    of sums and shares; the constituency layer shows, beside its fixed
    fields, weighted columns of fields of the list only.  No column
    outside the list is weighted or shown as a demographic field. *)
Theorem caste_columns_considered :
  forall (parse_number : pystr -> num) (df work : frame) (key : string),
    aggregable work key (CASTE_COLS df) = true ->
    (forall c,
        In c (CASTE_COLS df)
        <-> In c DEFAULT_CASTE_COLS /\ has_column df c = true)
    /\ (exists agg,
           ac_aggregate parse_number work key (CASTE_COLS df) = Ok agg
           /\ columns agg
              = BASE_COLUMNS
                ++ map weighted_name
                       (filter (has_column work) (CASTE_COLS df)))
    /\ village_tooltip_fields (CASTE_COLS df)
       = [VILLAGE_FIELD; "subdistrict"; "district"; AC_FIELD; DUMMY_AC_FIELD]
         ++ PARTY_SHARE_COLS ++ CASTE_COLS df
    /\ (forall cols c,
           In c (ac_tooltip_fields key (CASTE_COLS df) cols) ->
           In c [key; "TDP_share"; "YSRCP_share"; "BJP_share";
                 "Others_share"]
           \/ exists c0,
               c = weighted_name c0 /\ In c0 DEFAULT_CASTE_COLS
               /\ has_column df c0 = true)
    /\ (forall c0,
           ~ In c0 DEFAULT_CASTE_COLS ->
           ~ In c0 (CASTE_COLS df)
           /\ forall agg,
               ac_aggregate parse_number work key (CASTE_COLS df) = Ok agg ->
               ~ In (weighted_name c0) (columns agg)).
Proof.
  intros parse_number df work key Ha.
  destruct (ac_aggregate_rows parse_number work key (CASTE_COLS df) Ha)
    as (agg & E & _ & C).
  assert (Hcols : columns agg
                  = BASE_COLUMNS
                    ++ map weighted_name
                         (filter (has_column work) (CASTE_COLS df))).
  { rewrite C. apply weighted_columns_fold.
    - apply NoDup_filter_string, NoDup_DEFAULT_CASTE_COLS.
    - intros c _ Hin. exact (BASE_COLUMNS_plain _ Hin c eq_refl). }
  split; [apply CASTE_COLS_iff|]. split; [now exists agg|].
  split; [reflexivity|]. split.
  - intros cols c Hin. unfold ac_tooltip_fields in Hin.
    apply in_app_or in Hin. destruct Hin as [Hin|Hin]; [now left|].
    right. apply filter_In in Hin. destruct Hin as [Hin _].
    apply in_map_iff in Hin. destruct Hin as (c0 & <- & Hc0).
    exists c0. split; auto. now apply CASTE_COLS_iff.
  - intros c0 Hc0. split.
    + intros Hin. apply CASTE_COLS_iff in Hin. tauto.
    + intros agg' E'. rewrite E in E'. inversion E'; subst agg'.
      rewrite Hcols. intros Hin. apply in_app_or in Hin.
      destruct Hin as [Hin|Hin].
      * exact (BASE_COLUMNS_plain _ Hin c0 eq_refl).
      * apply in_map_iff in Hin. destruct Hin as (c1 & Heq & Hc1).
        apply weighted_name_inj in Heq. subst c1.
        apply filter_In in Hc1. destruct Hc1 as [Hc1 _].
        apply CASTE_COLS_iff in Hc1. tauto.
Qed.

Lemma caste_columns_considered_witness :
  aggregable (two_villages (Str (py "X"))) DUMMY_AC_FIELD
             (CASTE_COLS (two_villages (Str (py "X")))) = true
  /\ exists agg,
      ac_aggregate parse_digits (two_villages (Str (py "X"))) DUMMY_AC_FIELD
        (CASTE_COLS (two_villages (Str (py "X")))) = Ok agg
      /\ columns agg
         = BASE_COLUMNS
           ++ map weighted_name
                  (filter (has_column (two_villages (Str (py "X"))))
                          (CASTE_COLS (two_villages (Str (py "X"))))).
Proof.
  split; [reflexivity|].
  apply (caste_columns_considered parse_digits
           (two_villages (Str (py "X"))) (two_villages (Str (py "X")))
           DUMMY_AC_FIELD).
  reflexivity.
Defined.

(** C10 as stated fails: when the shapefile too has a column [SC_pct],
    that field is in the intersection of the sheet's columns with the
    list, the merge renames both columns, and the aggregator weights
    nothing. *)
Lemma clash_drops_weighted_column :
  In "SC_pct" (CASTE_COLS sheet_with_SC_pct)
  /\ columns_of (table_of (merged shapes_with_SC_pct sheet_with_SC_pct))
     = Some ([SHP_REGION_FIELD; "SC_pct_x"; CSV_KEY; DUMMY_AC_FIELD;
              TOTAL_VOTES_COL; "TDP_votes"; "YSRCP_votes"; "BJP_votes";
              "Others_votes"; "SC_pct_y"])
  /\ columns_of
       (m <- table_of (merged shapes_with_SC_pct sheet_with_SC_pct) ;;
        ac_aggregate parse_digits m DUMMY_AC_FIELD
                     (CASTE_COLS sheet_with_SC_pct))
     = Some BASE_COLUMNS.
Proof.
  split; [vm_compute; auto|]. split; vm_compute; reflexivity.
Qed.

(* ================================================================== *)
(** * The aggregator and the store *)
(* ================================================================== *)

Lemma update_length (h : Store.heap) (l : Store.loc) (f : frame) :
  List.length (Store.update h l f) = List.length h.
Proof.
  revert l. induction h as [|g h IH]; intros [|l]; simpl; auto.
Qed.

Lemma update_other (h : Store.heap) (l l' : Store.loc) (f : frame) :
  l <> l' -> nth_error (Store.update h l f) l' = nth_error h l'.
Proof.
  revert l l'. induction h as [|g h IH]; intros [|l] [|l'] H; simpl; auto;
    try congruence; try (apply IH; congruence).
Qed.

Lemma update_same (h : Store.heap) (l : Store.loc) (f : frame) :
  (l < List.length h)%nat -> nth_error (Store.update h l f) l = Some f.
Proof.
  revert l. induction h as [|g h IH]; intros [|l] H; simpl in *;
    try lia; auto.
  apply IH. lia.
Qed.

Section Preservation.

Variable n : nat.

Lemma preserves_ret {A : Type} (P : A -> Prop) (a : A) :
  P a -> preserves n P (Store.ret a).
Proof.
  intros Ha h Hh. simpl. repeat split; auto.
  intros a' E. inversion E. now subst.
Qed.

Lemma preserves_lift {A : Type} (r : res A) :
  preserves n (fun _ => True) (Store.lift r).
Proof. intros h Hh. simpl. auto. Qed.

Lemma preserves_bind {A B : Type} (P : A -> Prop) (Q : B -> Prop)
    (m : Store.M A) (k : A -> Store.M B) :
  preserves n P m ->
  (forall a, P a -> preserves n Q (k a)) ->
  preserves n Q (Store.bind m k).
Proof.
  intros Hm Hk h Hh. unfold Store.bind.
  destruct (Hm h Hh) as (H1 & H2 & H3).
  destruct (m h) as [h' [a|e]] eqn:E; simpl in *.
  - destruct (Hk a (H3 a eq_refl) h' H1) as (K1 & K2 & K3).
    repeat split; auto.
    intros l Hl. now rewrite K2, H2.
  - repeat split; auto. intros a E'. discriminate.
Qed.

Lemma preserves_weaken {A : Type} (P Q : A -> Prop) (m : Store.M A) :
  (forall a, P a -> Q a) -> preserves n P m -> preserves n Q m.
Proof.
  intros HPQ Hm h Hh. destruct (Hm h Hh) as (H1 & H2 & H3).
  repeat split; auto.
Qed.

Lemma preserves_get (l : Store.loc) :
  preserves n (fun _ => True) (Store.get l).
Proof.
  intros h Hh. unfold Store.get.
  destruct (nth_error h l); simpl; auto.
Qed.

(** A write above [n] leaves the objects below [n] alone. *)
Lemma preserves_put (l : Store.loc) (f : frame) :
  (n <= l)%nat -> preserves n (fun _ => True) (Store.put l f).
Proof.
  intros Hl h Hh. unfold Store.put. simpl.
  rewrite update_length. repeat split; auto.
  intros l' Hl'. apply update_other. lia.
Qed.

(** A new object lies above [n]. *)
Lemma preserves_alloc (f : frame) :
  preserves n (fun l => (n <= l)%nat) (Store.alloc f).
Proof.
  intros h Hh. unfold Store.alloc. simpl.
  rewrite length_app. simpl. repeat split; try lia.
  - intros l Hl. apply nth_error_app1. lia.
  - intros a E. inversion E. now subst.
Qed.

Lemma preserves_for_each {A : Type} (l : list A)
    (body : A -> Store.M unit) :
  (forall x, preserves n (fun _ => True) (body x)) ->
  preserves n (fun _ => True) (Store.for_each l body).
Proof.
  intros Hb. induction l as [|x l IH]; simpl.
  - now apply preserves_ret.
  - eapply preserves_bind; [apply Hb|]. intros _ _. exact IH.
Qed.

Lemma preserves_df_copy (df : Store.loc) :
  preserves n (fun l => (n <= l)%nat) (Store.df_copy df).
Proof.
  eapply preserves_bind; [apply preserves_get|].
  intros f _. apply preserves_alloc.
Qed.

Lemma preserves_df_has_column (df : Store.loc) (c : string) :
  preserves n (fun _ => True) (Store.df_has_column df c).
Proof.
  eapply preserves_bind; [apply preserves_get|].
  intros f _. now apply preserves_ret.
Qed.

Lemma preserves_df_column (df : Store.loc) (c : string) :
  preserves n (fun _ => True) (Store.df_column df c).
Proof.
  eapply preserves_bind; [apply preserves_get|].
  intros f _. now apply preserves_ret.
Qed.

Lemma preserves_df_set_column (df : Store.loc) (c : string)
    (vals : list cell) :
  (n <= df)%nat ->
  preserves n (fun _ => True) (Store.df_set_column df c vals).
Proof.
  intros H. eapply preserves_bind; [apply preserves_get|].
  intros f _. now apply preserves_put.
Qed.

Lemma preserves_df_set_column_aligned (df : Store.loc) (c : string)
    (s : series) :
  (n <= df)%nat ->
  preserves n (fun _ => True) (Store.df_set_column_aligned df c s).
Proof.
  intros H. eapply preserves_bind; [apply preserves_get|].
  intros f _. now apply preserves_put.
Qed.

Lemma preserves_df_select_copy (df : Store.loc) (cs : list string) :
  preserves n (fun l => (n <= l)%nat) (Store.df_select_copy df cs).
Proof.
  eapply preserves_bind; [apply preserves_get|]. intros f _.
  eapply preserves_bind; [apply preserves_lift|]. intros t _.
  apply preserves_alloc.
Qed.

Lemma preserves_df_groupby_sums (df : Store.loc) (key : string)
    (cs : list string) (new : string) :
  preserves n (fun l => (n <= l)%nat)
            (Store.df_groupby_sums df key cs new).
Proof.
  eapply preserves_bind; [apply preserves_get|]. intros f _.
  eapply preserves_bind; [apply preserves_lift|]. intros t _.
  apply preserves_alloc.
Qed.

Variable parse_number : pystr -> num.

Lemma preserves_coerce_step (work : Store.loc) (c : string) :
  (n <= work)%nat ->
  preserves n (fun _ => True) (Store.coerce_step parse_number work c).
Proof.
  intros H. eapply preserves_bind; [apply preserves_df_has_column|].
  intros [|] _; [|now apply preserves_ret].
  eapply preserves_bind; [apply preserves_df_column|].
  intros v _. now apply preserves_df_set_column.
Qed.

Lemma preserves_share_step (agg : Store.loc) (oc : string * string) :
  (n <= agg)%nat ->
  preserves n (fun _ => True) (Store.share_step agg oc).
Proof.
  intros H. eapply preserves_bind; [apply preserves_df_column|].
  intros counts _. eapply preserves_bind; [apply preserves_df_column|].
  intros totals _. now apply preserves_df_set_column.
Qed.

Lemma preserves_weighted_step (work agg : Store.loc) (key c : string) :
  (n <= agg)%nat ->
  preserves n (fun _ => True)
            (Store.weighted_step parse_number work agg key c).
Proof.
  intros H. eapply preserves_bind; [apply preserves_df_has_column|].
  intros [|] _; [|now apply preserves_ret].
  destruct (String.eqb c key || String.eqb c TOTAL_VOTES_COL);
    [apply preserves_lift|].
  eapply preserves_bind; [apply preserves_df_select_copy|].
  intros wdf Hw. cbv beta in Hw.
  eapply preserves_bind; [apply preserves_df_column|]. intros v _.
  eapply preserves_bind; [now apply preserves_df_set_column|]. intros _ _.
  eapply preserves_bind; [apply preserves_df_column|]. intros t _.
  eapply preserves_bind; [now apply preserves_df_set_column|]. intros _ _.
  eapply preserves_bind; [apply preserves_df_column|]. intros keys _.
  eapply preserves_bind; [apply preserves_df_column|]. intros field _.
  eapply preserves_bind; [apply preserves_df_column|]. intros votes _.
  now apply preserves_df_set_column_aligned.
Qed.

(** The aggregator writes into objects of its own only. *)
Lemma preserves_ac_aggregate (df_in : Store.loc) (key : string)
    (caste_cols : list string) :
  preserves n (fun l => (n <= l)%nat)
            (Store.ac_aggregate parse_number df_in key caste_cols).
Proof.
  eapply preserves_bind; [apply preserves_df_copy|].
  intros work Hw. cbv beta in Hw.
  eapply preserves_bind.
  { apply preserves_for_each. intros c.
    now apply preserves_coerce_step. }
  intros _ _.
  eapply preserves_bind; [apply preserves_df_groupby_sums|].
  intros agg Hagg. cbv beta in Hagg.
  eapply preserves_bind.
  { apply preserves_for_each. intros oc.
    now apply preserves_share_step. }
  intros _ _.
  eapply preserves_bind.
  { apply preserves_for_each. intros c.
    now apply preserves_weighted_step. }
  intros _ _. now apply preserves_ret.
Qed.

End Preservation.

(** C9.  The aggregator does not mutate its input.  Whatever the store,
    the reference [df_in], the grouping key and the list of fields, after
    the call every object that was in the store before it is what it was,
    the object of [df_in] among them, whether the call returns or raises;
    the frame returned is an object that did not exist before. *)
Theorem ac_aggregate_leaves_input :
  forall (parse_number : pystr -> num) (h : Store.heap)
         (df_in : Store.loc) (group_key : string)
         (caste_cols : list string),
    let after :=
      Store.ac_aggregate parse_number df_in group_key caste_cols h in
    (forall l, (l < List.length h)%nat ->
               nth_error (fst after) l = nth_error h l)
    /\ nth_error (fst after) df_in = nth_error h df_in
    /\ (forall agg, snd after = Ok agg -> (List.length h <= agg)%nat).
Proof.
  intros parse_number h df_in key cc after.
  destruct (preserves_ac_aggregate (List.length h) parse_number df_in key cc
              h (Nat.le_refl _)) as (H1 & H2 & H3).
  fold after in H1, H2, H3. split; [exact H2|]. split; [|exact H3].
  destruct (Nat.lt_ge_cases df_in (List.length h)) as [Hlt|Hge].
  - now apply H2.
  - assert (E : nth_error h df_in = None) by now apply nth_error_None.
    assert (Ea : after = (h, Raise ValueError)).
    { unfold after, Store.ac_aggregate, Store.bind, Store.df_copy,
        Store.bind, Store.get. now rewrite E. }
    now rewrite Ea.
Qed.

(* ------------------------------------------------------------------ *)
(** ** The value that the store computation returns *)

Lemma update_id (h : Store.heap) (l : Store.loc) (f : frame) :
  nth_error h l = Some f -> Store.update h l f = h.
Proof.
  revert l. induction h as [|g h IH]; intros [|l] H; simpl in *;
    try discriminate; auto.
  - now inversion H.
  - f_equal. now apply IH.
Qed.

Lemma update_update (h : Store.heap) (l : Store.loc) (f g : frame) :
  Store.update (Store.update h l f) l g = Store.update h l g.
Proof.
  revert l. induction h as [|x h IH]; intros [|l]; simpl; auto.
  f_equal. apply IH.
Qed.

Lemma nth_error_lt (h : Store.heap) (l : Store.loc) (f : frame) :
  nth_error h l = Some f -> (l < List.length h)%nat.
Proof. intros H. apply nth_error_Some. congruence. Qed.

Lemma bind_ok {A B : Type} (m : Store.M A) (k : A -> Store.M B)
    (h h' : Store.heap) (a : A) :
  m h = (h', Ok a) -> Store.bind m k h = k a h'.
Proof. intros H. unfold Store.bind. now rewrite H. Qed.

Lemma bind_raise {A B : Type} (m : Store.M A) (k : A -> Store.M B)
    (h h' : Store.heap) (e : exn) :
  m h = (h', Raise e) -> Store.bind m k h = (h', Raise e).
Proof. intros H. unfold Store.bind. now rewrite H. Qed.

Section Reads.

Variables (h : Store.heap) (l : Store.loc) (f : frame).
Hypothesis at_l : nth_error h l = Some f.

Lemma get_at : Store.get l h = (h, Ok f).
Proof. unfold Store.get. now rewrite at_l. Qed.

Lemma df_has_column_at (c : string) :
  Store.df_has_column l c h = (h, Ok (has_column f c)).
Proof. unfold Store.df_has_column. now rewrite (bind_ok _ _ _ _ _ get_at). Qed.

Lemma df_column_at (c : string) :
  Store.df_column l c h = (h, Ok (column f c)).
Proof. unfold Store.df_column. now rewrite (bind_ok _ _ _ _ _ get_at). Qed.

Lemma df_set_column_at (c : string) (vals : list cell) :
  Store.df_set_column l c vals h
  = (Store.update h l (set_column f c vals), Ok tt).
Proof.
  unfold Store.df_set_column. now rewrite (bind_ok _ _ _ _ _ get_at).
Qed.

Lemma df_set_column_aligned_at (c : string) (s : series) :
  Store.df_set_column_aligned l c s h
  = (Store.update h l (set_column_aligned f c s), Ok tt).
Proof.
  unfold Store.df_set_column_aligned.
  now rewrite (bind_ok _ _ _ _ _ get_at).
Qed.

Lemma df_copy_at :
  Store.df_copy l h = (h ++ [f], Ok (List.length h)).
Proof. unfold Store.df_copy. now rewrite (bind_ok _ _ _ _ _ get_at). Qed.

End Reads.

Lemma nth_error_new (h : Store.heap) (f : frame) :
  nth_error (h ++ [f]) (List.length h) = Some f.
Proof. rewrite nth_error_app2 by lia. now rewrite Nat.sub_diag. Qed.

Lemma nth_error_old (h : Store.heap) (f g : frame) (l : Store.loc) :
  nth_error h l = Some g -> nth_error (h ++ [f]) l = Some g.
Proof.
  intros H. rewrite nth_error_app1; auto. eapply nth_error_lt; eauto.
Qed.

Section Runs.

Variable parse_number : pystr -> num.

Lemma coerce_step_run (h : Store.heap) (work : Store.loc) (w : frame)
    (c : string) :
  nth_error h work = Some w ->
  Store.coerce_step parse_number work c h
  = (Store.update h work (coerce_column parse_number w c), Ok tt).
Proof.
  intros H. unfold Store.coerce_step, coerce_column.
  rewrite (bind_ok _ _ _ _ _ (df_has_column_at h work w H c)).
  destruct (has_column w c).
  - rewrite (bind_ok _ _ _ _ _ (df_column_at h work w H c)).
    apply df_set_column_at. exact H.
  - unfold Store.ret. now rewrite update_id.
Qed.

Lemma coerce_loop_run (cs : list string) :
  forall (h : Store.heap) (work : Store.loc) (w : frame),
    nth_error h work = Some w ->
    Store.for_each cs (Store.coerce_step parse_number work) h
    = (Store.update h work (fold_left (coerce_column parse_number) cs w),
       Ok tt).
Proof.
  induction cs as [|c cs IH]; intros h work w H; simpl.
  - unfold Store.ret. now rewrite update_id.
  - rewrite (bind_ok _ _ _ _ _ (coerce_step_run h work w c H)).
    rewrite (IH _ work (coerce_column parse_number w c)).
    + now rewrite update_update.
    + apply update_same. eapply nth_error_lt; eauto.
Qed.

Lemma share_step_run (h : Store.heap) (agg : Store.loc) (a : frame)
    (oc : string * string) :
  nth_error h agg = Some a ->
  Store.share_step agg oc h = (Store.update h agg (add_share a oc), Ok tt).
Proof.
  intros H. unfold Store.share_step, add_share.
  rewrite (bind_ok _ _ _ _ _ (df_column_at h agg a H (snd oc))).
  rewrite (bind_ok _ _ _ _ _ (df_column_at h agg a H TOTAL_VOTES_COL)).
  now apply df_set_column_at.
Qed.

Lemma share_loop_run (l : list (string * string)) :
  forall (h : Store.heap) (agg : Store.loc) (a : frame),
    nth_error h agg = Some a ->
    Store.for_each l (Store.share_step agg) h
    = (Store.update h agg (fold_left add_share l a), Ok tt).
Proof.
  induction l as [|oc l IH]; intros h agg a H; simpl.
  - unfold Store.ret. now rewrite update_id.
  - rewrite (bind_ok _ _ _ _ _ (share_step_run h agg a oc H)).
    rewrite (IH _ agg (add_share a oc)).
    + now rewrite update_update.
    + apply update_same. eapply nth_error_lt; eauto.
Qed.

End Runs.

(* ================================================================== *)
(** * Further properties of the aggregator *)
(* ================================================================== *)

Lemma Forall2_base_keys (parse_number : pystr -> num) (df : frame)
    (key : string) (ks : list cell) (rs : list row) :
  Forall2 agrees_on_plain (map (base_row parse_number df key) ks) rs ->
  map (fun r => row_get r "AC_key") rs = ks.
Proof.
  revert rs. induction ks as [|k ks IH]; intros rs H; simpl in H;
    inversion H; subst; simpl; auto.
  f_equal; auto.
  now rewrite (H2 "AC_key" plain_AC_key), base_row_key.
Qed.

(** X1.  One record per grouping-key value.  On an aggregable input the
    aggregator returns; the keys of its records are pairwise different and
    come in increasing order, the missing key last; each is a key of the
    input, and the key of every input row, the missing one too, has its
    record.  An input without rows gives a result without records. *)
Theorem ac_aggregate_one_record_per_key :
  forall (parse_number : pystr -> num) (df : frame) (key : string)
         (caste_cols : list string),
    aggregable df key caste_cols = true ->
    exists agg,
      ac_aggregate parse_number df key caste_cols = Ok agg
      /\ StronglySorted (fun a b => cell_ltb a b = true) (record_keys agg)
      /\ ForallOrdPairs (fun a b => cell_eqb a b = false) (record_keys agg)
      /\ (forall k, In k (record_keys agg) -> In k (column df key))
      /\ (forall r, In r (rows df) ->
            exists k, In k (record_keys agg)
                      /\ cell_eqb (row_get r key) k = true)
      /\ (rows df = [] -> rows agg = []).
Proof.
  intros parse_number df key cc Ha.
  destruct (ac_aggregate_rows parse_number df key cc Ha) as (agg & E & R & _).
  exists agg. split; [exact E|].
  assert (Hk : record_keys agg = group_keys false (column df key)).
  { unfold record_keys, column at 1. eapply Forall2_base_keys; eauto. }
  rewrite Hk. split; [apply group_keys_sorted|].
  split; [apply group_keys_distinct|]. split; [|split].
  - intros k. apply group_keys_from.
  - intros r Hr. apply group_keys_has. unfold column.
    now apply (in_map (fun r => row_get r key)).
  - intros Hnil. apply Forall2_length in R.
    rewrite length_map in R. unfold column in R. rewrite Hnil in R.
    simpl in R. destruct (rows agg); [reflexivity|discriminate].
Qed.

Lemma ac_aggregate_one_record_per_key_witness :
  aggregable (two_villages (Str (py "X"))) DUMMY_AC_FIELD ["SC_pct"] = true
  /\ exists agg,
      ac_aggregate parse_digits (two_villages (Str (py "X")))
                   DUMMY_AC_FIELD ["SC_pct"] = Ok agg
      /\ StronglySorted (fun a b => cell_ltb a b = true) (record_keys agg)
      /\ ForallOrdPairs (fun a b => cell_eqb a b = false) (record_keys agg)
      /\ (forall k, In k (record_keys agg) ->
                    In k (column (two_villages (Str (py "X")))
                                 DUMMY_AC_FIELD))
      /\ (forall r, In r (rows (two_villages (Str (py "X")))) ->
            exists k, In k (record_keys agg)
                      /\ cell_eqb (row_get r DUMMY_AC_FIELD) k = true)
      /\ (rows (two_villages (Str (py "X"))) = [] -> rows agg = []).
Proof.
  split; [reflexivity|].
  apply (ac_aggregate_one_record_per_key parse_digits
           (two_villages (Str (py "X"))) DUMMY_AC_FIELD ["SC_pct"]).
  reflexivity.
Defined.

(* ------------------------------------------------------------------ *)
(** ** Missing columns *)

Lemma find_some_of {A : Type} (p : A -> bool) (l : list A) (a : A) :
  In a l -> p a = true -> exists b, find p l = Some b /\ In b l /\ p b = true.
Proof.
  induction l as [|x l IH]; simpl; [tauto|].
  intros [->|Hin] Hp.
  - rewrite Hp. exists a. auto.
  - destruct (p x) eqn:E.
    + exists x. auto.
    + destruct (IH Hin Hp) as (b & Hb & Hin' & Hp'). exists b. auto.
Qed.

(** X2.  Missing columns.  Without the grouping column the aggregator
    raises [KeyError] for it; with it, and with one of the five summed
    columns absent, it raises [KeyError] for an absent summed column.  In
    both cases nothing is returned.  (The share columns and the caste
    columns may be absent: see [aggregable].) *)
Theorem ac_aggregate_missing_column :
  forall (parse_number : pystr -> num) (df : frame) (key : string)
         (caste_cols : list string),
    (has_column df key = false ->
     ac_aggregate parse_number df key caste_cols = Raise (KeyError key))
    /\ (has_column df key = true -> mem key SUM_COLS = false ->
        forall c, In c SUM_COLS -> has_column df c = false ->
        exists c',
          In c' SUM_COLS /\ has_column df c' = false
          /\ ac_aggregate parse_number df key caste_cols
             = Raise (KeyError c')).
Proof.
  intros parse_number df key cc. split.
  - intros H. unfold ac_aggregate, groupby_agg_sum.
    now rewrite has_column_coerce, H.
  - intros Hk Hn c Hc Hm. unfold ac_aggregate, groupby_agg_sum.
    rewrite has_column_coerce, Hk. simpl negb. cbv iota.
    destruct (find_some_of
                (fun c0 => negb (has_column
                                   (coerce_numerics parse_number df) c0)
                           || String.eqb c0 key) SUM_COLS c Hc)
      as (c' & Ef & Hin & Hp).
    { now rewrite has_column_coerce, Hm. }
    rewrite Ef. cbn [res_bind]. exists c'. split; [exact Hin|].
    split; [|reflexivity].
    rewrite has_column_coerce in Hp. apply orb_true_iff in Hp.
    destruct Hp as [Hp|Hp]; [now apply negb_true_iff in Hp|].
    apply String.eqb_eq in Hp. subst c'.
    apply mem_true_iff in Hin. congruence.
Qed.

(* ------------------------------------------------------------------ *)
(** ** Conservation of the sums *)

Lemma flat_map_filter_nomatch {A : Type} (key : A -> cell) (a : A)
    (rs : list A) (G : list cell) :
  (forall k, In k G -> cell_eqb k (key a) = false) ->
  flat_map (fun k => filter (fun r => cell_eqb k (key r)) (a :: rs)) G
  = flat_map (fun k => filter (fun r => cell_eqb k (key r)) rs) G.
Proof.
  induction G as [|k G IH]; intros H; simpl; auto.
  rewrite (H k) by now left. f_equal. apply IH.
  intros k' Hk'. apply H. now right.
Qed.

Lemma flat_map_filter_cons {A : Type} (key : A -> cell) (a : A)
    (rs : list A) (G : list cell) :
  ForallOrdPairs (fun x y => cell_eqb x y = false) G ->
  (exists k, In k G /\ cell_eqb k (key a) = true) ->
  Permutation
    (a :: flat_map (fun k => filter (fun r => cell_eqb k (key r)) rs) G)
    (flat_map (fun k => filter (fun r => cell_eqb k (key r)) (a :: rs)) G).
Proof.
  induction 1 as [|k G Hk HG IH]; intros (k0 & Hin & Hm); [destruct Hin|].
  cbn [flat_map].
  replace (filter (fun r => cell_eqb k (key r)) (a :: rs))
    with (if cell_eqb k (key a)
          then a :: filter (fun r => cell_eqb k (key r)) rs
          else filter (fun r => cell_eqb k (key r)) rs) by reflexivity.
  destruct (cell_eqb k (key a)) eqn:E.
  - rewrite flat_map_filter_nomatch; [reflexivity|].
    intros k' Hk'. rewrite Forall_forall in Hk.
    destruct (cell_eqb k' (key a)) eqn:E'; auto.
    specialize (Hk k' Hk').
    rewrite (cell_eqb_congr k (key a) k' E) in Hk.
    rewrite cell_eqb_sym, E' in Hk. discriminate.
  - destruct Hin as [->|Hin]; [congruence|].
    eapply perm_trans; [apply Permutation_middle|].
    apply Permutation_app_head. apply IH. exists k0. auto.
Qed.

(** The rows of a frame are the rows of its groups. *)
Lemma rows_by_group {A : Type} (key : A -> cell) (rs : list A)
    (G : list cell) :
  ForallOrdPairs (fun x y => cell_eqb x y = false) G ->
  (forall r, In r rs -> exists k, In k G /\ cell_eqb k (key r) = true) ->
  Permutation rs
    (flat_map (fun k => filter (fun r => cell_eqb k (key r)) rs) G).
Proof.
  intros HG. induction rs as [|a rs IH]; intros Hcov.
  - clear HG Hcov. induction G as [|k G IH]; simpl; auto.
  - eapply perm_trans.
    + apply perm_skip. apply IH. intros r Hr. apply Hcov. now right.
    + apply flat_map_filter_cons; auto. apply Hcov. now left.
Qed.

Lemma fold_add_finite (xs : list num) (a : Q) :
  (forall x, In x xs -> finite_or_missing x) ->
  exists q,
    fold_left num_add (filter (fun x => negb (is_nan x)) xs) (Fin a) = Fin q.
Proof.
  revert a. induction xs as [|x xs IH]; intros a H; simpl.
  - now exists a.
  - assert (Hx : finite_or_missing x) by (apply H; now left).
    assert (Hxs : forall y, In y xs -> finite_or_missing y)
      by (intros y Hy; apply H; now right).
    destruct x; simpl in *; try contradiction; now apply IH.
Qed.

Lemma sum_skipna_finite (xs : list num) :
  (forall x, In x xs -> finite_or_missing x) ->
  exists q, sum_skipna 0 xs = Fin q.
Proof. intros H. unfold sum_skipna. simpl. now apply fold_add_finite. Qed.

Lemma sum_skipna_cons_fin (q : Q) (xs : list num) :
  canon (Fin q) ->
  sum_skipna 0 (Fin q :: xs) = num_add (Fin q) (sum_skipna 0 xs).
Proof.
  intros Hc. change (Fin q :: xs) with ([Fin q] ++ xs).
  rewrite sum_skipna_app. f_equal.
  unfold sum_skipna. simpl. f_equal.
  simpl in Hc. rewrite <- Hc at 2. apply Qred_eq_of_Qeq. ring.
Qed.

(** The sum of the sums of the groups is the sum of all. *)
Lemma sum_of_group_sums {K : Type} (g : K -> list num) (G : list K) :
  (forall k x, In k G -> In x (g k) -> finite_or_missing x) ->
  sum_skipna 0 (flat_map g G)
  = sum_skipna 0 (map (fun k => sum_skipna 0 (g k)) G).
Proof.
  induction G as [|k G IH]; intros H; [reflexivity|].
  cbn [flat_map map]. rewrite sum_skipna_app.
  destruct (sum_skipna_finite (g k)) as (q & Eq).
  { intros x Hx. apply (H k); auto. now left. }
  pose proof (sum_skipna_canon 0 (g k)) as Hc. rewrite Eq in Hc |- *.
  rewrite sum_skipna_cons_fin by exact Hc. f_equal.
  apply IH. intros k' x Hk' Hx. apply (H k'); auto. now right.
Qed.

Lemma Forall2_base_sums (parse_number : pystr -> num) (df : frame)
    (key : string) (c : string) (ks : list cell) (rs : list row) :
  In c SUM_COLS ->
  Forall2 agrees_on_plain (map (base_row parse_number df key) ks) rs ->
  map (fun r => as_num (row_get r c)) rs
  = map (fun k => group_total parse_number df key k c) ks.
Proof.
  intros Hc. revert rs. induction ks as [|k ks IH]; intros rs H;
    simpl in H; inversion H; subst; simpl; auto.
  f_equal; auto.
  now rewrite (H2 c (plain_SUM_COLS c Hc)), base_row_sum.
Qed.

(** X3.  Aggregation conserves the counts.  When every coerced total and
    count of the input is a finite number or missing, the total votes of
    the records add up to the total votes of the villages, and so does
    each party count: no vote is lost or counted twice by the grouping,
    the villages with a missing key included. *)
Theorem ac_aggregate_conserves_sums :
  forall (parse_number : pystr -> num) (df : frame) (key : string)
         (caste_cols : list string),
    aggregable df key caste_cols = true ->
    (forall r c, In r (rows df) -> In c SUM_COLS ->
                 finite_or_missing (to_numeric parse_number (row_get r c))) ->
    exists agg,
      ac_aggregate parse_number df key caste_cols = Ok agg
      /\ forall c, In c SUM_COLS ->
           sum_skipna 0 (map as_num (column agg c))
           = sum_skipna 0 (map (to_numeric parse_number) (column df c)).
Proof.
  intros parse_number df key cc Ha Hfin.
  destruct (ac_aggregate_rows parse_number df key cc Ha) as (agg & E & R & _).
  exists agg. split; [exact E|]. intros c Hc.
  unfold column. rewrite !map_map.
  rewrite (Forall2_base_sums parse_number df key c _ _ Hc R).
  unfold group_total, group_column.
  rewrite <- (sum_of_group_sums
                (fun k => map (fun r => to_numeric parse_number (row_get r c))
                              (filter (fun r => cell_eqb k (row_get r key))
                                      (rows df)))).
  - apply sum_skipna_perm. rewrite flat_map_concat_map.
    rewrite <- (map_map
                  (fun k => filter (fun r => cell_eqb k (row_get r key))
                                   (rows df))
                  (map (fun r => to_numeric parse_number (row_get r c)))).
    rewrite <- concat_map, <- flat_map_concat_map.
    apply Permutation_map. apply Permutation_sym.
    apply (rows_by_group (fun r => row_get r key)).
    + apply group_keys_distinct.
    + intros r Hr.
      destruct (group_keys_has (column df key) (row_get r key))
        as (k & Hk & Ek).
      { unfold column. now apply (in_map (fun r => row_get r key)). }
      exists k. split; auto. now rewrite cell_eqb_sym.
  - intros k x _ Hx. apply in_map_iff in Hx. destruct Hx as (r & <- & Hr).
    apply filter_In in Hr. apply Hfin; tauto.
Qed.

Lemma ac_aggregate_conserves_sums_witness :
  aggregable (two_villages (Str (py "X"))) DUMMY_AC_FIELD ["SC_pct"] = true
  /\ exists agg,
      ac_aggregate parse_digits (two_villages (Str (py "X")))
                   DUMMY_AC_FIELD ["SC_pct"] = Ok agg
      /\ forall c, In c SUM_COLS ->
           sum_skipna 0 (map as_num (column agg c))
           = sum_skipna 0 (map (to_numeric parse_digits)
                               (column (two_villages (Str (py "X"))) c)).
Proof.
  split; [reflexivity|].
  apply (ac_aggregate_conserves_sums parse_digits
           (two_villages (Str (py "X"))) DUMMY_AC_FIELD ["SC_pct"]).
  - reflexivity.
  - intros r c Hr Hc. simpl in Hr, Hc.
    repeat (destruct Hr as [<-|Hr];
            [repeat (destruct Hc as [<-|Hc]; [exact I|]); contradiction|]).
    contradiction.
Defined.

(* ================================================================== *)
(** * Reading back what was written *)
(* ================================================================== *)

Lemma column_set_column_same (f : frame) (c : string) (vals : list cell) :
  List.length vals = List.length (rows f) ->
  column (set_column f c vals) c = vals.
Proof.
  unfold column, set_column. cbn [rows]. rewrite map_map.
  generalize (rows f). intros rs. revert vals.
  induction rs as [|r rs IH]; intros [|v vals] H; simpl in *;
    try discriminate; auto.
  rewrite row_get_set_same. f_equal. apply IH. congruence.
Qed.

Lemma column_set_column_other (f : frame) (c c' : string)
    (vals : list cell) :
  c <> c' ->
  List.length vals = List.length (rows f) ->
  column (set_column f c vals) c' = column f c'.
Proof.
  intros Hne. unfold column, set_column. cbn [rows]. rewrite map_map.
  generalize (rows f). intros rs. revert vals.
  induction rs as [|r rs IH]; intros [|v vals] H; simpl in *;
    try discriminate; auto.
  rewrite row_get_set_other by exact Hne. f_equal. apply IH. congruence.
Qed.

Lemma has_column_set_column (f : frame) (c c' : string) (vals : list cell) :
  has_column (set_column f c vals) c'
  = has_column f c' || String.eqb c' c.
Proof.
  unfold set_column, has_column. cbn [columns].
  destruct (mem c (columns f)) eqn:E.
  - destruct (String.eqb_spec c' c) as [Heq|Hne].
    + subst c'. rewrite E. reflexivity.
    + now rewrite orb_false_r.
  - unfold mem. rewrite existsb_app. simpl. now rewrite orb_false_r.
Qed.

Lemma row_get_projection (r : row) (cs : list string) (c : string) :
  In c cs -> row_get (map (fun c0 => (c0, row_get r c0)) cs) c = row_get r c.
Proof.
  induction cs as [|c0 cs IH]; simpl; [tauto|].
  intros H. destruct (String.eqb_spec c0 c) as [->|Hne]; auto.
  destruct H as [H|H]; [contradiction|auto].
Qed.

(** A selected column holds what the column held. *)
Lemma column_select (f t : frame) (cs : list string) (c : string) :
  select f cs = Ok t -> In c cs -> column t c = column f c.
Proof.
  unfold select. destruct (find _ cs); [discriminate|].
  intros E Hc. inversion E; subst. unfold column. cbn [rows].
  rewrite map_map. apply map_ext. intros r. now apply row_get_projection.
Qed.

(* ================================================================== *)
(** * What the aggregator reads *)
(* ================================================================== *)

Lemma Forall2_agree_column (cs : list string) (rs rs' : list row)
    (c : string) :
  Forall2 (agree_on cs) rs rs' -> In c cs ->
  map (fun r => row_get r c) rs = map (fun r => row_get r c) rs'.
Proof.
  intros H Hc. induction H as [|r r' rs rs' Hr _ IH]; simpl; auto.
  f_equal; auto.
Qed.

Section ReadSet.

Variable parse_number : pystr -> num.

Lemma coerce_rows_agree (cs cols : list string) (rs rs' : list row) :
  Forall2 (agree_on cs) rs rs' ->
  Forall2 (agree_on cs) (map (coerce_row parse_number cols) rs)
          (map (coerce_row parse_number cols) rs').
Proof.
  induction 1 as [|r r' rs rs' Hr _ IH]; simpl; constructor; auto.
  intros c Hc. rewrite !coerce_row_get. now rewrite (Hr c Hc).
Qed.

Lemma groupby_agg_sum_ext (w w' : frame) (key : string) (cs : list string) :
  columns w = columns w' ->
  column w key = column w' key ->
  (forall c, In c cs -> column w c = column w' c) ->
  groupby_agg_sum w key cs = groupby_agg_sum w' key cs.
Proof.
  intros Hcols Hkey Hcs. unfold groupby_agg_sum, has_column.
  rewrite Hcols, Hkey.
  destruct (negb (mem key (columns w'))); auto.
  destruct (find _ cs); auto. do 2 f_equal.
  apply map_ext. intros k. f_equal. apply map_ext_in. intros c Hc.
  now rewrite (Hcs c Hc).
Qed.

Lemma select_ext (w w' : frame) (cs : list string) :
  columns w = columns w' ->
  Forall2 (agree_on cs) (rows w) (rows w') ->
  select w cs = select w' cs.
Proof.
  intros Hcols H. unfold select, has_column. rewrite Hcols.
  destruct (find _ cs); auto. do 2 f_equal.
  induction H as [|r r' rs rs' Hr _ IH]; simpl; auto.
  f_equal; auto. apply map_ext_in. intros c Hc. now rewrite (Hr c Hc).
Qed.

Lemma agree_on_incl (cs cs' : list string) (rs rs' : list row) :
  incl cs' cs ->
  Forall2 (agree_on cs) rs rs' -> Forall2 (agree_on cs') rs rs'.
Proof.
  intros Hi H. induction H; constructor; auto.
  intros c Hc. auto.
Qed.

Lemma add_weighted_ext (w w' : frame) (key : string) (agg : frame)
    (c : string) :
  columns w = columns w' ->
  Forall2 (agree_on [key; c; TOTAL_VOTES_COL]) (rows w) (rows w') ->
  add_weighted parse_number w key agg c
  = add_weighted parse_number w' key agg c.
Proof.
  intros Hcols H. unfold add_weighted.
  rewrite (select_ext w w' _ Hcols H).
  unfold has_column. now rewrite Hcols.
Qed.

Lemma add_weighted_all_ext (w w' : frame) (key : string)
    (cs : list string) :
  columns w = columns w' ->
  Forall2 (agree_on (key :: TOTAL_VOTES_COL :: cs)) (rows w) (rows w') ->
  forall agg,
    add_weighted_all parse_number w key agg cs
    = add_weighted_all parse_number w' key agg cs.
Proof.
  intros Hcols. induction cs as [|c cs IH]; intros H agg; simpl; auto.
  rewrite (add_weighted_ext w w' key agg c Hcols).
  - destruct (add_weighted parse_number w' key agg c); simpl; auto.
    apply IH. eapply agree_on_incl; [|exact H].
    intros x Hx. simpl in *. intuition.
  - eapply agree_on_incl; [|exact H].
    intros x Hx. simpl in *. intuition.
Qed.

(** X4.  What the aggregator reads.  Two inputs with the same column names
    whose rows hold, pairwise, the same values in the grouping column, the
    five summed columns and the caste columns give the same result, an
    exception included: whatever else the sheet contains, the vote-share
    columns among it, has no influence. *)
Theorem ac_aggregate_reads_only :
  forall (df df' : frame) (key : string) (caste_cols : list string),
    columns df = columns df' ->
    Forall2 (agree_on (columns_read key caste_cols)) (rows df) (rows df') ->
    ac_aggregate parse_number df key caste_cols
    = ac_aggregate parse_number df' key caste_cols.
Proof.
  intros df df' key cc Hcols H.
  unfold ac_aggregate. rewrite !coerce_numerics_rows.
  set (w := {| columns := columns df; rows := _ |}).
  set (w' := {| columns := columns df'; rows := _ |}).
  assert (Hw : Forall2 (agree_on (columns_read key cc)) (rows w) (rows w')).
  { unfold w, w'. cbn [rows]. rewrite Hcols.
    now apply coerce_rows_agree. }
  assert (Hc : columns w = columns w') by exact Hcols.
  rewrite (groupby_agg_sum_ext w w' key SUM_COLS Hc).
  - destruct (groupby_agg_sum w' key SUM_COLS); simpl; auto.
    apply add_weighted_all_ext; auto.
    eapply agree_on_incl; [|exact Hw].
    intros x Hx. unfold columns_read. simpl in *. intuition.
  - unfold column. eapply Forall2_agree_column; eauto.
    unfold columns_read. now left.
  - intros c Hin. unfold column. eapply Forall2_agree_column; eauto.
    unfold columns_read. right. apply in_or_app. now left.
Qed.

End ReadSet.

Lemma ac_aggregate_reads_only_witness :
  columns (villages_with_share (int_cell 20) (int_cell 20))
  = columns (villages_with_share (int_cell 99) (Str (py "n/a")))
  /\ ac_aggregate parse_digits
       (villages_with_share (int_cell 20) (int_cell 20))
       DUMMY_AC_FIELD ["SC_pct"]
     = ac_aggregate parse_digits
         (villages_with_share (int_cell 99) (Str (py "n/a")))
         DUMMY_AC_FIELD ["SC_pct"].
Proof.
  split; [reflexivity|].
  apply (ac_aggregate_reads_only parse_digits
           (villages_with_share (int_cell 20) (int_cell 20))
           (villages_with_share (int_cell 99) (Str (py "n/a")))
           DUMMY_AC_FIELD ["SC_pct"]).
  - reflexivity.
  - repeat constructor; intros c Hc; simpl in Hc;
      repeat (destruct Hc as [<-|Hc]; [reflexivity|]); contradiction.
Defined.

(* ================================================================== *)
(** * The weighted columns under string keys *)
(* ================================================================== *)

Lemma series_lookup_text (s : series) (i : cell) :
  (forall l, In l (map fst s) -> exists t, l = Str t) ->
  (exists x, i = Num x) ->
  series_lookup s i = NaN.
Proof.
  intros Hs (x & ->). induction s as [|[l v] s IH]; simpl; auto.
  destruct (Hs l) as (t & ->); [simpl; auto|]. simpl.
  apply IH. intros l' Hl'. apply Hs. simpl. auto.
Qed.

Lemma weighted_values_labels (keys field votes : list cell) :
  map fst (weighted_values keys field votes) = group_keys true keys.
Proof.
  unfold weighted_values, series_map, series_div, groupby_sum_series.
  rewrite !map_map. simpl. apply map_id.
Qed.

Lemma text_labels (keys : list cell) (l : cell) :
  (forall k, In k keys -> text_or_missing k) ->
  In l (group_keys true keys) -> exists t, l = Str t.
Proof.
  intros Hk Hl. pose proof (group_keys_dropna keys l Hl) as Hna.
  apply group_keys_from in Hl. specialize (Hk l Hl).
  destruct l as [[| | |]|t]; simpl in *; try contradiction;
    try discriminate. now exists t.
Qed.

Lemma range_index_numbers (n : nat) (i : cell) :
  In i (range_index n) -> exists x, i = Num x.
Proof.
  unfold range_index. intros H. apply in_map_iff in H.
  destruct H as (j & <- & _). eauto.
Qed.

Lemma set_rows_const (c : string) (v : cell) (rs : list row)
    (vals : list cell) :
  List.length vals = List.length rs ->
  (forall x, In x vals -> x = v) ->
  map (fun rv => row_set (fst rv) c (snd rv)) (combine rs vals)
  = map (fun r => row_set r c v) rs.
Proof.
  revert vals. induction rs as [|r rs IH]; intros [|x vals] H Hv;
    simpl in *; try discriminate; auto.
  rewrite (Hv x) by auto. f_equal. apply IH; auto.
Qed.

Section TextKeys.

Variable parse_number : pystr -> num.

(** One turn of the caste loop under string keys writes the missing
    value into every record. *)
Lemma add_weighted_text (work : frame) (key : string) (agg agg' : frame)
    (c : string) :
  (forall k, In k (column work key) -> text_or_missing k) ->
  key <> TOTAL_VOTES_COL ->
  add_weighted parse_number work key agg c = Ok agg' ->
  has_column work c = true ->
  rows agg' = map (fun r => row_set r (weighted_name c) NA) (rows agg).
Proof.
  intros Hk Hkt E Hc. unfold add_weighted in E. rewrite Hc in E.
  destruct (String.eqb c key || String.eqb c TOTAL_VOTES_COL) eqn:G;
    [discriminate|].
  apply orb_false_iff in G. destruct G as [G1 G2].
  apply String.eqb_neq in G1, G2.
  destruct (select work [key; c; TOTAL_VOTES_COL]) as [wdf|e] eqn:Es;
    [|discriminate].
  cbn [res_bind] in E. inversion E; subst agg'. clear E.
  match goal with
  | |- context [set_column_aligned agg _ ?w] => remember w as s eqn:Hs
  end.
  unfold set_column_aligned, set_column. cbn [rows].
  apply set_rows_const.
  - unfold range_index. now rewrite !length_map, length_seq.
  - intros x Hx. apply in_map_iff in Hx. destruct Hx as (i & <- & Hi).
    unfold NA. f_equal. apply series_lookup_text.
    + subst s. rewrite weighted_values_labels. intros l Hl.
      apply (text_labels _ l) in Hl; auto.
      assert (Hlen : List.length (to_numeric_column parse_number
                                    (column wdf c))
                     = List.length (rows wdf)).
      { unfold to_numeric_column, column. now rewrite !length_map. }
      rewrite column_set_column_other.
      * rewrite column_set_column_other by auto.
        rewrite (column_select work wdf _ key Es) by (simpl; auto).
        exact Hk.
      * congruence.
      * unfold to_numeric_column, column. rewrite !length_map.
        now rewrite set_column_rows_length.
    + eapply range_index_numbers; eauto.
Qed.

Lemma add_weighted_text_keeps (work : frame) (key : string)
    (agg agg' : frame) (c : string) (n : string) :
  (forall k, In k (column work key) -> text_or_missing k) ->
  key <> TOTAL_VOTES_COL ->
  add_weighted parse_number work key agg c = Ok agg' ->
  (forall r, In r (rows agg) -> row_get r n = NA) ->
  forall r, In r (rows agg') -> row_get r n = NA.
Proof.
  intros Hk Hkt E Hn r Hr.
  destruct (has_column work c) eqn:Hc.
  - rewrite (add_weighted_text work key agg agg' c Hk Hkt E Hc) in Hr.
    apply in_map_iff in Hr. destruct Hr as (r0 & <- & Hr0).
    destruct (String.eqb_spec (weighted_name c) n) as [<-|Hne].
    + apply row_get_set_same.
    + rewrite row_get_set_other by exact Hne. now apply Hn.
  - unfold add_weighted in E. rewrite Hc in E. inversion E; subst.
    now apply Hn.
Qed.

Lemma add_weighted_all_text (work : frame) (key : string)
    (cs : list string) :
  (forall k, In k (column work key) -> text_or_missing k) ->
  key <> TOTAL_VOTES_COL ->
  forall agg agg',
    add_weighted_all parse_number work key agg cs = Ok agg' ->
    forall r c,
      In r (rows agg') -> In c cs -> has_column work c = true ->
      row_get r (weighted_name c) = NA.
Proof.
  intros Hk Hkt. induction cs as [|c0 cs IH]; intros agg agg' E r c Hr Hc Hh;
    [destruct Hc|].
  simpl in E.
  destruct (add_weighted parse_number work key agg c0) as [agg1|e] eqn:E1;
    [|discriminate].
  cbn [res_bind] in E.
  destruct Hc as [->|Hc].
  - assert (H1 : forall r1, In r1 (rows agg1) ->
                            row_get r1 (weighted_name c) = NA).
    { intros r1 Hr1.
      rewrite (add_weighted_text work key agg agg1 c Hk Hkt E1 Hh) in Hr1.
      apply in_map_iff in Hr1. destruct Hr1 as (r0 & <- & _).
      apply row_get_set_same. }
    clear IH E1. revert agg1 E H1 r Hr.
    induction cs as [|c1 cs IH2]; intros agg1 E H1 r Hr; simpl in E.
    + inversion E; subst. now apply H1.
    + destruct (add_weighted parse_number work key agg1 c1) as [agg2|e]
        eqn:E2; [|discriminate].
      cbn [res_bind] in E. apply (IH2 agg2 E); auto.
      eapply add_weighted_text_keeps; eauto.
  - eapply IH; eauto.
Qed.

(** X5.  Constituencies named by text get no weighted value.  When every
    grouping key of the input is a string or missing, the aggregator
    returns, and in every record the weighted column of every caste field
    that the input has holds the missing value, whatever the percentages
    and the totals are. *)
Theorem ac_aggregate_weighted_missing_for_text_keys :
  forall (df : frame) (key : string) (caste_cols : list string),
    aggregable df key caste_cols = true ->
    (forall k, In k (column df key) -> text_or_missing k) ->
    exists agg,
      ac_aggregate parse_number df key caste_cols = Ok agg
      /\ forall r c,
          In r (rows agg) -> In c caste_cols -> has_column df c = true ->
          row_get r (weighted_name c) = NA.
Proof.
  intros df key cc Ha Hk.
  destruct (ac_aggregate_rows parse_number df key cc Ha) as (agg & E & _).
  exists agg. split; [exact E|].
  unfold aggregable in Ha. rewrite !andb_true_iff in Ha.
  destruct Ha as [[[Hkey Hn] Hs] Hc]. apply negb_true_iff in Hn.
  unfold ac_aggregate in E.
  destruct (groupby_agg_sum (coerce_numerics parse_number df) key SUM_COLS)
    as [sums|e]; [|discriminate].
  cbn [res_bind] in E. intros r c Hr Hin Hh.
  eapply (add_weighted_all_text (coerce_numerics parse_number df) key cc);
    eauto.
  - rewrite column_coerce_key by exact Hn. exact Hk.
  - intros ->. discriminate Hn.
  - now rewrite has_column_coerce.
Qed.

End TextKeys.

Lemma ac_aggregate_weighted_missing_for_text_keys_witness :
  aggregable (two_villages (Str (py "X"))) DUMMY_AC_FIELD ["SC_pct"] = true
  /\ exists agg,
      ac_aggregate parse_digits (two_villages (Str (py "X")))
                   DUMMY_AC_FIELD ["SC_pct"] = Ok agg
      /\ forall r c,
          In r (rows agg) -> In c ["SC_pct"] ->
          has_column (two_villages (Str (py "X"))) c = true ->
          row_get r (weighted_name c) = NA.
Proof.
  split; [reflexivity|].
  apply (ac_aggregate_weighted_missing_for_text_keys parse_digits
           (two_villages (Str (py "X"))) DUMMY_AC_FIELD ["SC_pct"]).
  - reflexivity.
  - intros k Hk. simpl in Hk.
    repeat (destruct Hk as [<-|Hk]; [exact I|]). contradiction.
Defined.

(* ================================================================== *)
(** * The share formula *)
(* ================================================================== *)

Lemma rint_comp (x y : Q) : (x == y)%Q -> rint x = rint y.
Proof.
  intros H. unfold rint. rewrite (Qfloor_comp x y H).
  assert (Hc : Qcompare (x - inject_Z (Qfloor y)) (1 # 2)
               = Qcompare (y - inject_Z (Qfloor y)) (1 # 2)).
  { apply Qcompare_comp; [now rewrite H|reflexivity]. }
  now rewrite Hc.
Qed.

Lemma Qzero_b_false_of_nonzero (t : Q) : ~ (t == 0)%Q -> Qzero_b t = false.
Proof.
  intros H. unfold Qzero_b. destruct (Qeq_bool t 0) eqn:E; auto.
  apply Qeq_bool_iff in E. contradiction.
Qed.

(** The share of a finite count over a finite total that is not zero is
    the percentage, rounded half to even at the second decimal. *)
Lemma share_of_formula (s t : Q) :
  ~ (t == 0)%Q ->
  exists q,
    share_of (Fin s) (Fin t) = Fin q
    /\ (q == inject_Z (rint (s / t * 100 * 100)) / 100)%Q.
Proof.
  intros Ht. unfold share_of. simpl.
  rewrite (Qzero_b_false_of_nonzero t Ht). simpl.
  eexists. split; [reflexivity|].
  rewrite Qred_correct.
  rewrite (rint_comp (Qred (Qred (s / t) * 100) * 100) (s / t * 100 * 100)).
  - reflexivity.
  - now rewrite !Qred_correct.
Qed.

(** X6.  The recomputed shares.  On an aggregable input the aggregator
    returns without raising, and in every record each share is computed
    from the summed count and the summed total of that same record.  When
    both are finite and the total is not zero the share is
    count / total * 100 rounded half to even at the second decimal. *)
Theorem ac_aggregate_share_formula :
  forall (parse_number : pystr -> num) (df : frame) (key : string)
         (caste_cols : list string),
    aggregable df key caste_cols = true ->
    exists agg,
      ac_aggregate parse_number df key caste_cols = Ok agg
      /\ forall r oc,
          In r (rows agg) -> In oc share_map ->
          row_get r (fst oc)
          = Num (share_of (as_num (row_get r (snd oc)))
                          (as_num (row_get r TOTAL_VOTES_COL)))
          /\ forall s t,
              row_get r (snd oc) = Num (Fin s) ->
              row_get r TOTAL_VOTES_COL = Num (Fin t) ->
              ~ (t == 0)%Q ->
              exists q,
                row_get r (fst oc) = Num (Fin q)
                /\ (q == inject_Z (rint (s / t * 100 * 100)) / 100)%Q.
Proof.
  intros parse_number df key cc Ha.
  destruct (ac_aggregate_rows parse_number df key cc Ha) as (agg & E & R & _).
  exists agg. split; [exact E|]. intros r oc Hr Hoc.
  destruct (Forall2_map_in_r _ _ _ _ _ R Hr) as (k & Hk & Hag).
  assert (Ht : In TOTAL_VOTES_COL SUM_COLS) by (simpl; auto).
  pose proof (share_map_counts oc Hoc) as Hs.
  assert (Eshare : row_get r (fst oc)
                   = Num (share_of (as_num (row_get r (snd oc)))
                            (as_num (row_get r TOTAL_VOTES_COL)))).
  { rewrite (Hag _ (plain_SUM_COLS _ Ht)), (Hag _ (plain_SUM_COLS _ Hs)).
    rewrite (Hag _ (plain_share_out oc Hoc)).
    rewrite base_row_share by assumption.
    rewrite (base_row_sum parse_number df key k _ Hs).
    now rewrite (base_row_sum parse_number df key k _ Ht). }
  split; [exact Eshare|].
  intros s t Es Et Hnz. rewrite Eshare, Es, Et. cbn [as_num].
  destruct (share_of_formula s t Hnz) as (q & Eq & Hq).
  exists q. now rewrite Eq.
Qed.

Lemma ac_aggregate_share_formula_witness :
  aggregable (two_villages (Str (py "X"))) DUMMY_AC_FIELD ["SC_pct"] = true
  /\ exists agg,
      ac_aggregate parse_digits (two_villages (Str (py "X")))
                   DUMMY_AC_FIELD ["SC_pct"] = Ok agg
      /\ forall r oc,
          In r (rows agg) -> In oc share_map ->
          row_get r (fst oc)
          = Num (share_of (as_num (row_get r (snd oc)))
                          (as_num (row_get r TOTAL_VOTES_COL)))
          /\ forall s t,
              row_get r (snd oc) = Num (Fin s) ->
              row_get r TOTAL_VOTES_COL = Num (Fin t) ->
              ~ (t == 0)%Q ->
              exists q,
                row_get r (fst oc) = Num (Fin q)
                /\ (q == inject_Z (rint (s / t * 100 * 100)) / 100)%Q.
Proof.
  split; [reflexivity|].
  apply (ac_aggregate_share_formula parse_digits
           (two_villages (Str (py "X"))) DUMMY_AC_FIELD ["SC_pct"]).
  reflexivity.
Defined.

(** The end-to-end scenario of the specification: totals 50 and 150, TDP
    counts 20 and 90, one constituency: total 200 and a share of 55. *)
Example share_scenario :
  let df :=
    {| columns := VILLAGE_COLUMNS;
       rows := [village (Str (py "X")) (int_cell 50) (int_cell 20)
                        (int_cell 0) (int_cell 0) (int_cell 30) NA;
                village (Str (py "X")) (int_cell 150) (int_cell 90)
                        (int_cell 0) (int_cell 0) (int_cell 60) NA] |} in
  cell_at (ac_aggregate parse_digits df DUMMY_AC_FIELD []) 0 TOTAL_VOTES_COL
  = Some (int_cell 200)
  /\ cell_at (ac_aggregate parse_digits df DUMMY_AC_FIELD []) 0 "TDP_share"
     = Some (int_cell 55).
Proof. split; vm_compute; reflexivity. Qed.
